(** * AlexNet (TensorFlow 2) training script: optimizer, augmentation worker,
      double-buffer pipeline and epoch loop, embedded shallowly.

    Sources embedded here:
    - [optimizer_alexnet.py]: class [SGD] ([__init__], [_create_slots],
      [_resource_apply_dense]);
    - [main.py]: [image_cropping], [img_preprocessing], the per-epoch
      priming / steady-state / drain loop and the stagnation check.

    Numbers.  Python numbers and tensor entries are modelled as exact
    rationals ([Q]); a tensor operation of TensorFlow is elementwise, so an
    optimizer variable is followed through one of its coordinates. *)

From Stdlib Require Import QArith Qround Qpower Lqa Lia List Bool Arith PeanoNat.
From stdpp Require Import gmap strings list fin_maps.

Set Default Proof Using "Type".

(* ===================================================================== *)
(** * The optimizer of [optimizer_alexnet.py]                             *)
(* ===================================================================== *)

Module Optimizer.

Local Open Scope Q_scope.

(** A hyperparameter handed to [SGD.__init__]: a Python number
    ([int]/[float]), an [ops.Tensor], or a zero-argument callable.  The
    payload is the value it evaluates to. *)
Inductive hyper : Type :=
  | PyNum (x : Q)
  | PyTensor (x : Q)
  | PyCallable (x : Q).

(** [self._get_hyper(name)]: the value of a stored hyperparameter. *)
Definition _get_hyper (h : hyper) : Q :=
  match h with
  | PyNum x | PyTensor x | PyCallable x => x
  end.

(** [isinstance(h, ops.Tensor) or callable(h) or h > 0] (short-circuit
    [or]: the comparison is only reached for a number). *)
Definition enabled (h : hyper) : bool :=
  match h with
  | PyTensor _ | PyCallable _ => true
  | PyNum x => if Qlt_le_dec 0 x then true else false
  end.

(** [isinstance(h, (int, float)) and (h < 0 or h > 1)]. *)
Definition out_of_unit_interval (h : hyper) : bool :=
  match h with
  | PyNum x =>
      (if Qlt_le_dec x 0 then true else false)
      || (if Qlt_le_dec 1 x then true else false)
  | PyTensor _ | PyCallable _ => false
  end.

(** The exception of [__init__], with its message. *)
Inductive exn : Type :=
  | ValueError (msg : string).

(** The attributes of an [SGD] object that the update rule reads. *)
Record SGD : Type := mkSGD {
  learning_rate : hyper;
  weight_decay : hyper;
  momentum : hyper;
  _weight_decay : bool;
  _momentum : bool;
  nesterov : bool
}.

(** [SGD.__init__(learning_rate, weight_decay, momentum, nesterov)], with no
    keyword arguments (so [decay] is 0).  Both range checks of the source
    test [momentum]; the first one carries the [weight_decay] message. *)
Definition __init__ (lr wd mom : hyper) (nest : bool) : exn + SGD :=
  let _wd := enabled wd in
  if out_of_unit_interval mom then
    inl (ValueError "`weight_decay` must be between [0, 1].")
  else
    let _mom := enabled mom in
    if out_of_unit_interval mom then
      inl (ValueError "`momentum` must be between [0, 1].")
    else
      inr (mkSGD lr wd mom _wd _mom nest).

(** The optimizer's view of the training state: the model's variables, and
    the slot variables [self._slots[var][slot_name]] it owns. *)
Record store : Type := mkStore {
  vars : gmap string Q;
  slots : gmap (string * string) Q
}.

(** [self.add_slot(var, slot_name)]: creates a zero slot unless the slot
    exists already. *)
Definition add_slot (var slot_name : string) (st : store) : store :=
  match slots st !! (var, slot_name) with
  | Some _ => st
  | None => mkStore (vars st) (<[(var, slot_name) := 0]> (slots st))
  end.

(** [SGD._create_slots(var_list)]. *)
Definition _create_slots (opt : SGD) (var_list : list string) (st : store)
  : store :=
  let st1 :=
    if _momentum opt
    then fold_left (fun s v => add_slot v "momentum" s) var_list st
    else st in
  if _weight_decay opt
  then fold_left (fun s v => add_slot v "weight_decay" s) var_list st1
  else st1.

(** The coefficients of [_prepare_local]: [lr_t] (the learning rate, the
    [decay] hyperparameter being 0), [momentum] and [weight_decay]. *)
Record coefficients : Type := mkCoef {
  lr_t : Q;
  coef_momentum : Q;
  coef_weight_decay : Q
}.

Definition _prepare_local (opt : SGD) : coefficients :=
  mkCoef (_get_hyper (learning_rate opt))
         (_get_hyper (momentum opt))
         (_get_hyper (weight_decay opt)).

(** TensorFlow's [ResourceApplyKerasMomentum] kernel:
    [accum = accum * momentum - lr * grad], then
    [var += accum] or, with Nesterov, [var += accum * momentum - lr * grad]. *)
Definition resource_apply_keras_momentum
    (var accum lr grad mom : Q) (use_nesterov : bool) : Q * Q :=
  let accum' := accum * mom - lr * grad in
  let var' := if use_nesterov
              then var + (accum' * mom - lr * grad)
              else var + accum' in
  (var', accum').

(** TensorFlow's [ResourceApplyGradientDescent] kernel:
    [var -= alpha * delta]. *)
Definition resource_apply_gradient_descent (var alpha delta : Q) : Q :=
  var - alpha * delta.

(** [SGD._resource_apply_dense(grad, var, apply_state)].  [None] stands for
    the lookup failure of a variable or of its momentum slot. *)
Definition _resource_apply_dense
    (opt : SGD) (grad : Q) (var : string) (st : store) : option store :=
  let coef := _prepare_local opt in
  w ← vars st !! var;
  if _momentum opt then
    momentum_var ← slots st !! (var, "momentum"%string);
    let '(w', v') :=
      resource_apply_keras_momentum w momentum_var (lr_t coef) grad
        (coef_momentum coef) (nesterov opt) in
    Some (mkStore (<[var := w']> (vars st))
                  (<[(var, "momentum"%string) := v']> (slots st)))
  else
    Some (mkStore
            (<[var := resource_apply_gradient_descent w (lr_t coef) grad]>
               (vars st))
            (slots st)).

(** [OptimizerV2.apply_gradients(grads_and_vars)]: create the slots of the
    listed variables, then apply each gradient in turn. *)
Fixpoint apply_each (opt : SGD) (gvs : list (Q * string)) (st : store)
  : option store :=
  match gvs with
  | [] => Some st
  | (g, v) :: rest =>
      st' ← _resource_apply_dense opt g v st;
      apply_each opt rest st'
  end.

Definition apply_gradients (opt : SGD) (gvs : list (Q * string)) (st : store)
  : option store :=
  apply_each opt gvs (_create_slots opt (map snd gvs) st).

(** The gradient the specification asks the momentum step to see. *)
Definition decayed_gradient (wd g w : Q) : Q := g + wd * w.

(** The training loop calls [apply_gradients] once per sub-batch: the
    calls for one variable [w] with the successive gradients [gs]. *)
Fixpoint train_steps (opt : SGD) (w : string) (gs : list Q) (st : store)
  : option store :=
  match gs with
  | [] => Some st
  | g :: rest =>
      st' ← apply_gradients opt [(g, w)] st;
      train_steps opt w rest st'
  end.

(** ** Sparse gradients

    A variable is a list of rows, a row a number; a sparse gradient is a
    list of row indices and the list of the gradients of those rows. *)

(** TensorFlow's [resource_scatter_add(var, indices, updates)]:
    [var[indices[k]] += updates[k]] for every [k], in order; an index
    outside the variable, or lists of different lengths, is an error. *)
Fixpoint scatter_add_rows (var : list Q) (iu : list (nat * Q))
  : option (list Q) :=
  match iu with
  | [] => Some var
  | (i, u) :: rest =>
      x ← var !! i;
      scatter_add_rows (<[i := x + u]> var) rest
  end.

Definition resource_scatter_add (var : list Q) (indices : list nat)
    (updates : list Q) : option (list Q) :=
  if (length indices =? length updates)%nat
  then scatter_add_rows var (zip indices updates)
  else None.

(** TensorFlow's [ResourceSparseApplyKerasMomentum] kernel: for every
    [k], in order, on the row [i = indices[k]]:
    [accum[i] = accum[i] * momentum - lr * grad[k]], then
    [var[i] += accum[i]] or, with Nesterov,
    [var[i] += accum[i] * momentum - lr * grad[k]]. *)
Fixpoint sparse_keras_momentum_rows (var accum : list Q)
    (ig : list (nat * Q)) (lr mom : Q) (use_nesterov : bool)
  : option (list Q * list Q) :=
  match ig with
  | [] => Some (var, accum)
  | (i, g) :: rest =>
      v ← var !! i;
      a ← accum !! i;
      let a' := a * mom - lr * g in
      let v' := if use_nesterov then v + (a' * mom - lr * g) else v + a' in
      sparse_keras_momentum_rows (<[i := v']> var) (<[i := a']> accum)
        rest lr mom use_nesterov
  end.

Definition resource_sparse_apply_keras_momentum (var accum : list Q)
    (lr : Q) (grad : list Q) (indices : list nat) (mom : Q)
    (use_nesterov : bool) : option (list Q * list Q) :=
  if (length indices =? length grad)%nat
  then sparse_keras_momentum_rows var accum (zip indices grad) lr mom
         use_nesterov
  else None.

(** [SGD._resource_apply_sparse(grad, var, indices)]; [accum] is the
    momentum slot of the variable. *)
Definition _resource_apply_sparse (opt : SGD) (grad : list Q)
    (var accum : list Q) (indices : list nat) : option (list Q * list Q) :=
  let coef := _prepare_local opt in
  resource_sparse_apply_keras_momentum var accum (lr_t coef) grad indices
    (coef_momentum coef) (nesterov opt).

(** The gradient that the rows of a sparse gradient add up to at row
    [i]. *)
Fixpoint dense_row (i : nat) (indices : list nat) (grad : list Q) : Q :=
  match indices, grad with
  | j :: indices', g :: grad' =>
      (if (j =? i)%nat then g else 0) + dense_row i indices' grad'
  | _, _ => 0
  end.

(** [tf.unique]: the distinct indices, in the order of their first
    occurrence. *)
Fixpoint unique_from (seen : list nat) (indices : list nat) : list nat :=
  match indices with
  | [] => []
  | i :: rest =>
      if bool_decide (i ∈ seen) then unique_from seen rest
      else i :: unique_from (i :: seen) rest
  end.

(** [_deduplicate_indexed_slices(values, indices)]: the distinct indices
    and, for each, the sum of the values given for it
    ([unsorted_segment_sum] over the positions of [tf.unique]).  The
    segment sum needs one index per value: lists of different lengths are
    an error. *)
Definition _deduplicate_indexed_slices (values : list Q)
    (indices : list nat) : option (list Q * list nat) :=
  if (length indices =? length values)%nat then
    let unique_indices := unique_from [] indices in
    Some (map (fun i => dense_row i indices values) unique_indices,
          unique_indices)
  else None.

(** [SGD._resource_apply_sparse_duplicate_indices(grad, var, indices)].
    With momentum it is the method of the base class: deduplicate, then
    [_resource_apply_sparse]; without, a [resource_scatter_add] of
    [-grad * lr_t], which leaves the slot alone. *)
Definition _resource_apply_sparse_duplicate_indices
    (opt : SGD) (grad : list Q) (var accum : list Q) (indices : list nat)
  : option (list Q * list Q) :=
  if _momentum opt then
    match _deduplicate_indexed_slices grad indices with
    | Some (summed_grad, unique_indices) =>
        _resource_apply_sparse opt summed_grad var accum unique_indices
    | None => None
    end
  else
    let coef := _prepare_local opt in
    var' ← resource_scatter_add var indices
             (map (fun g => - g * lr_t coef) grad);
    Some (var', accum).

End Optimizer.

(* ===================================================================== *)
(** * The augmentation worker of [main.py]                                *)
(* ===================================================================== *)

Module Augment.

Local Open Scope Q_scope.

(** A pixel: its three channel values ([decode_jpeg(..., channels=3)]). *)
Definition pixel : Type := (Q * Q * Q)%type.

(** A rank-3 image tensor of shape [(height, width, 3)]: a tensor is
    rectangular, so it is given by its shape and its entries. *)
Record image : Type := mkImage {
  height : nat;
  width : nat;
  px : nat -> nat -> pixel
}.

Definition label : Type := Z.

(** The failures the worker can meet. *)
Inductive tf_error : Type :=
  | InvalidArgument_random_crop   (* "Need value.shape >= size" *)
  | InvalidArgument_stack         (* "Shapes of all inputs must match" *)
  | InvalidArgument_shuffle       (* "buffer_size must be greater than zero" *)
  | InvalidArgument_slice         (* "slice index out of bounds" of a tensor *)
  | IndexError.                   (* pop from an empty Python list *)

Definition IMAGENET_MEAN : pixel :=
  (122.10927936917298, 116.5416959998387, 102.61744377213829).

(** Length of the Python slice [start:stop] of an axis of extent [dim]
    ([stop = None] for an open end); indices are clamped to the extent. *)
Definition slice_len (dim start : nat) (stop : option nat) : nat :=
  (match stop with Some b => Nat.min b dim | None => dim end - start)%nat.

(** [image[r0:r1, c0:c1]]. *)
Definition slice2 (img : image) (r0 : nat) (r1 : option nat)
    (c0 : nat) (c1 : option nat) : image :=
  mkImage (slice_len (height img) r0 r1) (slice_len (width img) c0 c1)
          (fun i j => px img (r0 + i)%nat (c0 + j)%nat).

(** [tf.image.flip_left_right]: the width axis is reversed. *)
Definition flip_left_right (img : image) : image :=
  mkImage (height img) (width img)
          (fun i j => px img i (width img - 1 - j)%nat).

(** [tf.subtract(img, mean)], the mean broadcast along the channel axis. *)
Definition psub (p m : pixel) : pixel :=
  let '(r, g, b) := p in
  let '(mr, mg, mb) := m in
  (r - mr, g - mg, b - mb).

Definition tf_subtract (img : image) (mean : pixel) : image :=
  mkImage (height img) (width img) (fun i j => psub (px img i j) mean).

(** [tf.cast(img, tf.float32)]: the images are [float32] already. *)
Definition tf_cast (img : image) : image := img.

Definition same_shape (a b : image) : bool :=
  (height a =? height b)%nat && (width a =? width b)%nat.

(** [tf.stack(values)]: all inputs must have one shape; iterating over the
    stacked tensor gives the inputs back in order. *)
Definition tf_stack (values : list image) : tf_error + list image :=
  match values with
  | [] => inr []
  | x :: rest =>
      if forallb (same_shape x) rest then inr values
      else inl InvalidArgument_stack
  end.

(** [tf.image.random_crop(img, size=[s, s, 3])]: asserts
    [shape >= size], draws one number per axis from the random source and
    takes it modulo [shape - size + 1] as the offset (the channel axis has
    offset 0).  The random source is a stream [rnd], read at position
    [pos]. *)
Definition random_crop (img : image) (s : nat) (rnd : nat -> nat) (pos : nat)
  : (tf_error + image) * nat :=
  if (s <=? height img)%nat && (s <=? width img)%nat then
    let off_r := (rnd pos mod (height img - s + 1))%nat in
    let off_c := (rnd (pos + 1)%nat mod (width img - s + 1))%nat in
    (inr (slice2 img off_r (Some (off_r + s)%nat) off_c (Some (off_c + s)%nat)),
     (pos + 3)%nat)
  else (inl InvalidArgument_random_crop, pos).

(** [image_cropping(image, training)]. *)
Definition image_cropping (img : image) (training : bool)
    (rnd : nat -> nat) (pos : nat) : (tf_error + list image) * nat :=
  let INPUT_IMAGE_SIZE := 227%nat in
  if training then
    let horizental_fliped_image := flip_left_right img in
    match random_crop img INPUT_IMAGE_SIZE rnd pos with
    | (inl e, pos1) => (inl e, pos1)
    | (inr ran_crop_image1, pos1) =>
        match random_crop horizental_fliped_image INPUT_IMAGE_SIZE rnd pos1 with
        | (inl e, pos2) => (inl e, pos2)
        | (inr ran_crop_image2, pos2) =>
            (tf_stack [tf_subtract ran_crop_image1 IMAGENET_MEAN;
                       tf_subtract ran_crop_image2 IMAGENET_MEAN], pos2)
        end
    end
  else
    let five (im : image) : list image :=
      let topleft := tf_cast (slice2 im 0 (Some 227%nat) 0 (Some 227%nat)) in
      let topright := tf_cast (slice2 im 29 None 0 (Some 227%nat)) in
      let bottomleft := tf_cast (slice2 im 0 (Some 227%nat) 29 None) in
      let bottomright := tf_cast (slice2 im 29 None 29 None) in
      let center :=
        tf_cast (slice2 im 15 (Some 242%nat) 15 (Some 242%nat)) in
      [tf_subtract topleft IMAGENET_MEAN;
       tf_subtract topright IMAGENET_MEAN;
       tf_subtract bottomleft IMAGENET_MEAN;
       tf_subtract bottomright IMAGENET_MEAN;
       tf_subtract center IMAGENET_MEAN] in
    let horizental_fliped_image := flip_left_right img in
    (tf_stack (five img ++ five horizental_fliped_image), pos).

(** An augmented batch, as appended to the hand-off list [q]. *)
Definition aug_batch : Type := (list image * list label)%type.

(** The loop of [img_preprocessing] over [range(0, len(labels))].  The
    images and the labels are the two tensors of a batch: indexing one of
    them past its end is TensorFlow's [InvalidArgumentError]. *)
Fixpoint preprocessing_loop (images : list image) (labels : list label)
    (train : bool) (rnd : nat -> nat) (idx : list nat)
    (acc : aug_batch) (pos : nat) : (tf_error + aug_batch) * nat :=
  match idx with
  | [] => (inr acc, pos)
  | i :: rest =>
      match images !! i, labels !! i with
      | Some img, Some lab =>
          match image_cropping img train rnd pos with
          | (inl e, pos') => (inl e, pos')
          | (inr cropped_intend_image, pos') =>
              preprocessing_loop images labels train rnd rest
                (fst acc ++ cropped_intend_image,
                 snd acc ++ map (fun _ => lab) cropped_intend_image)
                pos'
          end
      | _, _ => (inl InvalidArgument_slice, pos)
      end
  end.

(** [img_preprocessing(q, images, labels, train)]: on success the pair of
    lists is appended to [q]; on an exception [q] is left as it was. *)
Definition img_preprocessing (q : list aug_batch)
    (images : list image) (labels : list label) (train : bool)
    (rnd : nat -> nat) (pos : nat) : (tf_error + list aug_batch) * nat :=
  match preprocessing_loop images labels train rnd
          (seq 0 (length labels)) ([], []) pos with
  | (inl e, pos') => (inl e, pos')
  | (inr b, pos') => (inr (q ++ [b]), pos')
  end.

(** The crop of [img] with top-left corner [(r, c)] and side [s], with the
    channel means subtracted: what each produced variant is compared to. *)
Definition is_mean_centred_crop (out img : image) (r c s : nat) : Prop :=
  height out = s /\ width out = s /\
  forall i j, (i < s)%nat -> (j < s)%nat ->
    px out i j = psub (px img (r + i)%nat (c + j)%nat) IMAGENET_MEAN.

(** Number of variants per image in each mode. *)
Definition variants (train : bool) : nat := if train then 2%nat else 10%nat.

(** The images whose crops all have the shape [tf.stack] needs: at least
    227 x 227 for the random crops, and 256 x 256 for the fixed slices of
    the evaluation branch. *)
Definition image_ok (train : bool) (img : image) : bool :=
  if train then (227 <=? height img)%nat && (227 <=? width img)%nat
  else (height img =? 256)%nat && (width img =? 256)%nat.

(** The ten evaluation variants in output order: whether the source is the
    mirrored image, the row offset and the column offset of the crop. *)
Definition eval_crop_table : list (bool * nat * nat) :=
  [(false, 0, 0); (false, 29, 0); (false, 0, 29); (false, 29, 29);
   (false, 15, 15);
   (true, 0, 0); (true, 29, 0); (true, 0, 29); (true, 29, 29);
   (true, 15, 15)]%nat.

Definition source_of (mirrored : bool) (img : image) : image :=
  if mirrored then flip_left_right img else img.

(** What the [k]-th variant of an image is, in each mode. *)
Definition variant_spec (train : bool) (img : image) (k : nat) (out : image)
  : Prop :=
  if train then
    exists r c : nat,
      (r + 227 <= height img)%nat /\ (c + 227 <= width img)%nat /\
      match k with
      | O => is_mean_centred_crop out img r c 227
      | S O => is_mean_centred_crop out (flip_left_right img) r c 227
      | _ => False
      end
  else
    match eval_crop_table !! k with
    | Some (mirrored, r, c) =>
        is_mean_centred_crop out (source_of mirrored img) r c 227
    | None => False
    end.

(** ** The variants in plain arithmetic

    What a variant is asked to be, written out on the pixels of the input
    image, without the operations of the worker. *)

(** A pixel with the three channel means of the training corpus
    subtracted, channel by channel. *)
Definition mean_subtracted (p : pixel) : pixel :=
  let '(r, g, b) := p in
  (r - 122.10927936917298, g - 116.5416959998387, b - 102.61744377213829).

(** [out] is the [s] x [s] window of [img] whose top-left corner is at row
    [r], column [c], with the means subtracted. *)
Definition is_crop_minus_mean (out img : image) (r c s : nat) : Prop :=
  height out = s /\ width out = s /\
  forall i j, (i < s)%nat -> (j < s)%nat ->
    px out i j = mean_subtracted (px img (r + i)%nat (c + j)%nat).

(** [out] is the same window of the horizontal mirror of [img]: column [k]
    of the mirror is column [width img - 1 - k] of [img]. *)
Definition is_mirror_crop_minus_mean (out img : image) (r c s : nat) : Prop :=
  height out = s /\ width out = s /\
  forall i j, (i < s)%nat -> (j < s)%nat ->
    px out i j
    = mean_subtracted (px img (r + i)%nat (width img - 1 - (c + j))%nat).


(** Two images to evaluate the worker on: one of the corpus size
    256 x 256 whose pixel at [(i, j)] holds [(i, j, 0)], and one of
    100 x 300. *)
Definition sample_image : image :=
  mkImage 256 256
    (fun i j => (inject_Z (Z.of_nat i), inject_Z (Z.of_nat j), 0)).

Definition small_image : image :=
  mkImage 100 300 (fun _ _ => (0, 0, 0)).


(** The exception a failed [image_cropping] raises in each mode. *)
Definition mode_error (train : bool) : tf_error :=
  if train then InvalidArgument_random_crop else InvalidArgument_stack.

(** Two's-complement wrap-around of an integer to [bits] bits. *)
Definition wrap (bits : Z) (x : Z) : Z :=
  ((x + 2 ^ (bits - 1)) mod 2 ^ bits - 2 ^ (bits - 1))%Z.

(** [_parse_function] on a record whose JPEG decodes to [decoded]: the
    image is cast to [float32]; the [int64] label is decremented and cast
    to [int32]. *)
Definition _parse_function (decoded : image) (record_label : Z)
  : image * label :=
  (tf_cast decoded, wrap 32 (wrap 64 (record_label - 1))).

Definition NUM_CLASSES : Z := 1000.

End Augment.

(* ===================================================================== *)
(** * The double-buffer loop of one epoch phase ([main.py])               *)
(* ===================================================================== *)

Module Pipeline.

Import Augment.

Definition BATCH_SIZE : nat := 128.

(** A raw batch of the record reader: [(images, labels)]. *)
Definition raw_batch : Type := (list image * list label)%type.

(** One element of [Dataset.from_tensor_slices((images, labels))]. *)
Definition sample : Type := (image * label)%type.

(** [Dataset.batch(batch_size, drop_remainder)] on a finite dataset.  The
    recursion is on [fuel]; [batch] supplies enough of it. *)
Fixpoint batch_fuel {A : Type} (fuel batch_size : nat) (drop_remainder : bool)
    (l : list A) : list (list A) :=
  match fuel with
  | O => []
  | S fuel' =>
      match l with
      | [] => []
      | _ :: _ =>
          if batch_size <=? length l then
            firstn batch_size l
              :: batch_fuel fuel' batch_size drop_remainder (skipn batch_size l)
          else if drop_remainder then [] else [l]
      end
  end.

Definition batch {A : Type} (batch_size : nat) (drop_remainder : bool)
    (l : list A) : list (list A) :=
  batch_fuel (length l) batch_size drop_remainder l.

(** What happens during a phase, in program order of the two threads. *)
Inductive event : Type :=
  | EvStart (step : nat)
      (* [t.start()] on the raw batch number [step] *)
  | EvAppend (q' : list aug_batch)
      (* the worker's [q.append(...)]; [q'] is the list afterwards *)
  | EvCrash (e : tf_error)
      (* the worker thread died of an exception *)
  | EvJoin
      (* [t.join()] returned *)
  | EvPop (b : aug_batch) (q' : list aug_batch)
      (* [q.pop()] returned [b]; [q'] is the list afterwards *)
  | EvStep (sub : list sample).
      (* [train_step] / [test_step] on one sub-batch *)

Record loop_state : Type := mkLoop {
  q : list aug_batch;     (* the hand-off list *)
  pos : nat;              (* position in the worker's random stream *)
  nshuffle : nat;         (* number of [shuffle] calls so far *)
  trace : list event
}.

Definition log (evs : list event) (st : loop_state) : loop_state :=
  mkLoop (q st) (pos st) (nshuffle st) (trace st ++ evs).

Section Phase.

(** The random stream of [random_crop], the permutation [shuffle] picks on
    its [n]-th call, and the thread schedule: during the iteration on raw
    batch number [step], the worker's append lands after [sched step]
    sub-batch steps of the main thread (or after the last one). *)
Variable rnd : nat -> nat.
Variable shuffle : nat -> list sample -> list sample.
Variable sched : nat -> nat.

(** The body of the worker thread, run on the shared list [q]. *)
Definition run_worker (train : bool) (raw : raw_batch) (st : loop_state)
  : loop_state :=
  match img_preprocessing (q st) (fst raw) (snd raw) train rnd (pos st) with
  | (inl e, pos') =>
      mkLoop (q st) pos' (nshuffle st) (trace st ++ [EvCrash e])
  | (inr q', pos') =>
      mkLoop q' pos' (nshuffle st) (trace st ++ [EvAppend q'])
  end.

(** [q.pop()], [tf.stack], [from_tensor_slices], [shuffle(batch_length)]
    and [batch(BATCH_SIZE, drop_remainder=True)]: the sub-batches of the
    augmented batch held in the slot. *)
Definition pop_and_split (st : loop_state)
  : tf_error + (list (list sample) * loop_state) :=
  match rev (q st) with
  | [] => inl IndexError
  | (train_images, train_labels) :: rest =>
      let st1 :=
        mkLoop (rev rest) (pos st) (nshuffle st)
          (trace st ++ [EvPop (train_images, train_labels) (rev rest)]) in
      let batch_length := length train_labels in
      match tf_stack train_images with
      | inl e => inl e
      | inr stacked =>
          if (batch_length =? 0)%nat then inl InvalidArgument_shuffle
          else
            let train_batch_ds :=
              batch BATCH_SIZE true
                (shuffle (nshuffle st) (zip stacked train_labels)) in
            inr (train_batch_ds,
                 mkLoop (q st1) (pos st1) (S (nshuffle st1)) (trace st1))
      end
  end.

Definition run_steps (subs : list (list sample)) (st : loop_state)
  : loop_state :=
  log (map EvStep subs) st.

(** The [for step, (images, labels) in enumerate(ds)] loop. *)
Fixpoint epoch_loop (train : bool) (ds : list raw_batch) (step : nat)
    (isFirst : bool) (st : loop_state) : tf_error + loop_state :=
  match ds with
  | [] => inr st
  | raw :: ds' =>
      if isFirst then
        let st1 := log [EvStart step] st in
        let st2 := run_worker train raw st1 in
        let st3 := log [EvJoin] st2 in
        epoch_loop train ds' (S step) false st3
      else
        match pop_and_split st with
        | inl e => inl e
        | inr (subs, st1) =>
            let st2 := log [EvStart step] st1 in
            let k := Nat.min (sched step) (length subs) in
            let st3 := run_steps (firstn k subs) st2 in
            let st4 := run_worker train raw st3 in
            let st5 := run_steps (skipn k subs) st4 in
            let st6 := log [EvJoin] st5 in
            epoch_loop train ds' (S step) false st6
        end
  end.

(** One phase of an epoch: [q = list()], the loop, then the last pop. *)
Definition run_phase (train : bool) (ds : list raw_batch) (pos0 : nat)
  : tf_error + loop_state :=
  match epoch_loop train ds 0 true (mkLoop [] pos0 0 []) with
  | inl e => inl e
  | inr st =>
      match pop_and_split st with
      | inl e => inl e
      | inr (subs, st1) => inr (run_steps subs st1)
      end
  end.

End Phase.

(** ** Observations on a trace *)

(** The raw batches a worker was started on, by number, in order; and the
    number of worker runs. *)
Definition started (tr : list event) : list nat :=
  flat_map (fun e => match e with EvStart s => [s] | _ => [] end) tr.

Definition worker_runs (tr : list event) : nat := length (started tr).

(** The batches the workers appended, and the batches popped, in order. *)
Definition appended (tr : list event) : list aug_batch :=
  flat_map (fun e => match e with
                     | EvAppend q' => match last q' with
                                      | Some b => [b]
                                      | None => []
                                      end
                     | _ => []
                     end) tr.

Definition popped (tr : list event) : list aug_batch :=
  flat_map (fun e => match e with EvPop b _ => [b] | _ => [] end) tr.

(** The sub-batches given to the train / eval step, in order. *)
Definition stepped (tr : list event) : list (list sample) :=
  flat_map (fun e => match e with EvStep s => [s] | _ => [] end) tr.

(** Tasks in flight after the events of [tr], starting from [n]; and whether
    the number stayed at most 1 all along. *)
Fixpoint in_flight (n : nat) (tr : list event) : nat :=
  match tr with
  | [] => n
  | EvStart _ :: tr' => in_flight (S n) tr'
  | EvJoin :: tr' => in_flight (pred n) tr'
  | _ :: tr' => in_flight n tr'
  end.

Fixpoint at_most_one_in_flight (n : nat) (tr : list event) : bool :=
  (n <=? 1) &&
  match tr with
  | [] => true
  | EvStart _ :: tr' => at_most_one_in_flight (S n) tr'
  | EvJoin :: tr' => at_most_one_in_flight (pred n) tr'
  | _ :: tr' => at_most_one_in_flight n tr'
  end.

(** The slot held at most one batch after every append and every pop, and
    each append found it empty (the list has exactly one element after). *)
Definition slot_ok (e : event) : bool :=
  match e with
  | EvAppend q' => length q' =? 1
  | EvPop _ q' => length q' =? 0
  | _ => true
  end.

(** The sub-batches the main thread cuts from an augmented batch on the
    [n]-th call of [shuffle]. *)
Definition sub_batches (shuffle : nat -> list sample -> list sample)
    (n : nat) (b : aug_batch) : list (list sample) :=
  batch BATCH_SIZE true (shuffle n (zip (fst b) (snd b))).

(** [aug] is what one run of the worker makes of the raw batch [raw]. *)
Definition augments (train : bool) (rnd : nat -> nat)
    (raw : raw_batch) (aug : aug_batch) : Prop :=
  exists p p',
    img_preprocessing [] (fst raw) (snd raw) train rnd p = (inr [aug], p').

(** An augmented batch the main thread can stack and shuffle. *)
Definition aug_ok (b : aug_batch) : Prop :=
  length (fst b) = length (snd b) /\ 0 < length (snd b)
  /\ Forall (fun o => height o = 227 /\ width o = 227) (fst b).

(** Sample batches to run the pipeline on: [n] copies of the 256 x 256
    sample image with label 7. *)
Definition sample_batch (n : nat) : raw_batch :=
  (repeat sample_image n, repeat 7%Z n).

(** A raw batch the worker can augment: one label per image, at least one
    image, and every image of a size the crops of the mode fit. *)
Definition batch_ok (train : bool) (raw : raw_batch) : bool :=
  (length (fst raw) =? length (snd raw))
  && negb (length (snd raw) =? 0)
  && forallb (image_ok train) (fst raw).

(** [ds.batch(batch_size=BATCH_SIZE, drop_remainder=False)] on the parsed
    records of one epoch: each raw batch is the pair of the images and the
    labels of its records. *)
Definition raw_batches (records : list sample) : list raw_batch :=
  map (fun b => (map fst b, map snd b)) (batch BATCH_SIZE false records).

(** Two loop states that differ at most in the order of the events of
    their traces: the same slot, the same positions in the random streams,
    and the same workers started, batches appended, batches popped and
    sub-batches stepped, each in the same order. *)
Definition same_outcome (a b : loop_state) : Prop :=
  q a = q b /\ pos a = pos b /\ nshuffle a = nshuffle b
  /\ started (trace a) = started (trace b)
  /\ appended (trace a) = appended (trace b)
  /\ popped (trace a) = popped (trace b)
  /\ stepped (trace a) = stepped (trace b).

Definition same_result (x y : tf_error + loop_state) : Prop :=
  match x, y with
  | inl e1, inl e2 => e1 = e2
  | inr a, inr b => same_outcome a b
  | _, _ => False
  end.

End Pipeline.

(* ===================================================================== *)
(** * The epoch loop of [main.py] and its stagnation check                *)
(* ===================================================================== *)

Module Train.

Local Open Scope Q_scope.

Definition NUM_EPOCHS : nat := 90.

Inductive main_event : Type :=
  | TrainPhase (epoch : nat)    (* the training pipeline of the epoch *)
  | EvalPhase (epoch : nat)     (* the evaluation pipeline of the epoch *)
  | Stagnation (epoch : nat).   (* a call of [performance_lr_scheduling()] *)

Record main_state : Type := mkMain {
  prev_test_accuracy : Q;
  events : list main_event
}.

Section Main.

(** [test_accuracy.result()] at the end of the evaluation phase of each
    epoch: a fraction of correctly classified samples. *)
Variable test_accuracy_result : nat -> Q.

(** The body of [for epoch in range(NUM_EPOCHS)]. *)
Definition epoch_body (st : main_state) (epoch : nat) : main_state :=
  let evs := events st ++ [TrainPhase epoch; EvalPhase epoch] in
  let evs' :=
    if Qle_bool (test_accuracy_result epoch) (prev_test_accuracy st)
    then evs ++ [Stagnation epoch]
    else evs in
  mkMain (test_accuracy_result epoch) evs'.

Definition main_loop (num_epochs : nat) : main_state :=
  fold_left epoch_body (seq 0 num_epochs) (mkMain (-1) []).

Definition main : main_state := main_loop NUM_EPOCHS.

End Main.

Definition is_stagnation_of (epoch : nat) (e : main_event) : bool :=
  match e with Stagnation e' => (e' =? epoch)%nat | _ => false end.

(** How often the stagnation signal was sent in a given epoch. *)
Definition stagnation_calls (epoch : nat) (evs : list main_event) : nat :=
  length (List.filter (is_stagnation_of epoch) evs).

(** Whether the accuracies [acc] make an epoch a stagnating one: never the
    first, and a later one when the previous accuracy is at least the
    current one. *)
Definition stagnates (acc : nat -> Q) (epoch : nat) : bool :=
  match epoch with
  | O => false
  | S e => Qle_bool (acc (S e)) (acc e)
  end.

(** The events of one epoch, in order. *)
Definition epoch_events (acc : nat -> Q) (epoch : nat) : list main_event :=
  [TrainPhase epoch; EvalPhase epoch]
  ++ (if stagnates acc epoch then [Stagnation epoch] else []).

Definition is_stagnation (e : main_event) : bool :=
  match e with Stagnation _ => true | _ => false end.

(** How often the stagnation signal was sent in a whole run. *)
Definition total_stagnation_calls (evs : list main_event) : nat :=
  length (List.filter is_stagnation evs).

End Train.

(* ===================================================================== *)
(** * Properties of the optimizer                                         *)
(* ===================================================================== *)

Section OptimizerFacts.

Import Optimizer.
Local Open Scope Q_scope.

Lemma add_slot_vars var name st : vars (add_slot var name st) = vars st.
Proof. unfold add_slot. by destruct (slots st !! (var, name)). Qed.

Lemma add_slot_lookup_eq var name st :
  slots (add_slot var name st) !! (var, name)
  = Some (default 0 (slots st !! (var, name))).
Proof.
  unfold add_slot.
  destruct (slots st !! (var, name)) as [v|] eqn:E; simpl.
  - exact E.
  - apply lookup_insert_eq.
Qed.

Lemma add_slot_lookup_ne var name st k :
  k ≠ (var, name) -> slots (add_slot var name st) !! k = slots st !! k.
Proof.
  intros Hne. unfold add_slot.
  destruct (slots st !! (var, name)); simpl; [done|].
  by apply lookup_insert_ne.
Qed.

Lemma create_slots_single_vars opt w st :
  vars (_create_slots opt [w] st) = vars st.
Proof.
  unfold _create_slots.
  destruct (_momentum opt), (_weight_decay opt); simpl;
    by rewrite ?add_slot_vars.
Qed.

Lemma create_slots_single_momentum opt w st :
  _momentum opt = true ->
  slots (_create_slots opt [w] st) !! (w, "momentum"%string)
  = Some (default 0 (slots st !! (w, "momentum"%string))).
Proof.
  intros Hm. unfold _create_slots. rewrite Hm.
  destruct (_weight_decay opt); simpl.
  - rewrite add_slot_lookup_ne by (intros [= ?]).
    apply add_slot_lookup_eq.
  - apply add_slot_lookup_eq.
Qed.

(** One call of [apply_gradients] on one variable, momentum enabled. *)
Lemma apply_gradients_single opt st w w0 g :
  _momentum opt = true -> nesterov opt = false ->
  vars st !! w = Some w0 ->
  let v := default 0 (slots st !! (w, "momentum"%string)) in
  let v' := v * _get_hyper (momentum opt)
            - _get_hyper (learning_rate opt) * g in
  exists st',
    apply_gradients opt [(g, w)] st = Some st'
    /\ slots st' !! (w, "momentum"%string) = Some v'
    /\ vars st' !! w = Some (w0 + v').
Proof.
  intros Hm Hn Hw v v'.
  unfold apply_gradients; simpl.
  unfold _resource_apply_dense.
  rewrite create_slots_single_vars, Hw; simpl.
  rewrite Hm, (create_slots_single_momentum _ _ _ Hm); simpl.
  rewrite Hn. eexists; split; [reflexivity|]. simpl.
  split; apply lookup_insert_eq.
Qed.

(** Without momentum the slot map is not read and the variable moves by
    [- lr * g]. *)
Lemma apply_dense_plain opt st w w0 g :
  _momentum opt = false -> vars st !! w = Some w0 ->
  exists st',
    _resource_apply_dense opt g w st = Some st'
    /\ vars st' !! w = Some (w0 - _get_hyper (learning_rate opt) * g)
    /\ slots st' = slots st.
Proof.
  intros Hm Hw. unfold _resource_apply_dense. rewrite Hw; simpl.
  rewrite Hm. eexists; split; [reflexivity|]. simpl.
  split; [apply lookup_insert_eq | reflexivity].
Qed.

(** [__init__] decides on [momentum] alone. *)
Lemma init_succeeds_iff lr wd mom nest :
  (exists opt, __init__ lr wd mom nest = inr opt)
  <-> out_of_unit_interval mom = false.
Proof.
  unfold __init__. destruct (out_of_unit_interval mom); split.
  - intros [opt H]; discriminate.
  - discriminate.
  - reflexivity.
  - intros _. eexists; reflexivity.
Qed.

Lemma out_of_unit_interval_num x :
  out_of_unit_interval (PyNum x) = false <-> 0 <= x <= 1.
Proof.
  unfold out_of_unit_interval.
  destruct (Qlt_le_dec x 0), (Qlt_le_dec 1 x); simpl; split; intros H;
    try discriminate; try reflexivity; try (split; lra); lra.
Qed.

(** The momentum range check works as documented: a number outside
    [0, 1] is refused with a [ValueError], one inside is accepted. *)
Lemma init_momentum_checked lr wd x nest :
  (0 <= x <= 1 -> exists opt, __init__ lr wd (PyNum x) nest = inr opt)
  /\ (~ 0 <= x <= 1 ->
      exists msg, __init__ lr wd (PyNum x) nest = inl (ValueError msg)).
Proof.
  split; intros H.
  - apply init_succeeds_iff, out_of_unit_interval_num, H.
  - unfold __init__.
    destruct (out_of_unit_interval (PyNum x)) eqn:E.
    + eexists; reflexivity.
    + apply out_of_unit_interval_num in E. contradiction.
Qed.

(** The step taken by [_resource_apply_dense] does not read the
    [weight_decay] hyperparameter: two optimizers that differ in it only
    move every variable and every momentum slot alike. *)
Lemma apply_dense_ignores_weight_decay lr wd1 wd2 mom f1 f2 fm nest g w st :
  let o1 := mkSGD lr wd1 mom f1 fm nest in
  let o2 := mkSGD lr wd2 mom f2 fm nest in
  _resource_apply_dense o1 g w st = _resource_apply_dense o2 g w st.
Proof. reflexivity. Qed.

(** C1.  The decay term is meant to be folded into the step
    ([g' = g + weight_decay * w] before the momentum update).  At
    [SGD(learning_rate=0.1, weight_decay=0.5, momentum=0.9)], [w = 1],
    [g = 2], the code creates the [weight_decay] slot and leaves it at 0,
    and takes the step of the undecayed gradient: [v = -0.2], [w = 0.8],
    whereas [g' = 2.5] asks for [v = -0.25], [w = 0.75]. *)
Theorem weight_decay_not_applied :
  exists opt st' v' w',
    __init__ (PyNum 0.1) (PyNum 0.5) (PyNum 0.9) false = inr opt
    /\ _weight_decay opt = true
    /\ apply_gradients opt [(2, "w"%string)]
         (mkStore {[ "w"%string := 1 ]} ∅) = Some st'
    /\ slots st' !! ("w"%string, "weight_decay"%string) = Some 0
    /\ slots st' !! ("w"%string, "momentum"%string) = Some v'
    /\ vars st' !! "w"%string = Some w'
    /\ v' == -0.2 /\ w' == 0.8
    /\ ~ v' == 0.9 * 0 - 0.1 * decayed_gradient 0.5 2 1
    /\ ~ w' == 1 + (0.9 * 0 - 0.1 * decayed_gradient 0.5 2 1).
Proof.
  eexists _, _, _, _.
  split; [vm_compute; reflexivity|].
  split; [reflexivity|].
  split; [vm_compute; reflexivity|].
  split; [vm_compute; reflexivity|].
  split; [vm_compute; reflexivity|].
  split; [vm_compute; reflexivity|].
  repeat split; vm_compute; congruence.
Qed.

(** C2.  Construction is meant to fail for a [weight_decay] outside
    [0, 1].  The guard that carries the [weight_decay] message tests
    [momentum], so [SGD(learning_rate=0.01, weight_decay=2,
    momentum=0.9)] is built, with weight decay switched on. *)
Theorem init_accepts_weight_decay_outside_unit_interval :
  __init__ (PyNum 0.01) (PyNum 2) (PyNum 0.9) false
  = inr (mkSGD (PyNum 0.01) (PyNum 2) (PyNum 0.9) true true false)
  /\ ~ (0 <= 2 <= 1).
Proof.
  split; [vm_compute; reflexivity | intros [_ H]; vm_compute in H; congruence].
Qed.

(** One momentum step in the terms of the specification, for an optimizer
    whose [weight_decay] is 0: there the gradient handed to the kernel is
    the decayed gradient. *)
Lemma apply_gradients_single_no_decay opt st w w0 g :
  _momentum opt = true -> nesterov opt = false ->
  _get_hyper (weight_decay opt) == 0 ->
  vars st !! w = Some w0 ->
  exists st' v' w',
    apply_gradients opt [(g, w)] st = Some st'
    /\ slots st' !! (w, "momentum"%string) = Some v'
    /\ vars st' !! w = Some w'
    /\ v' == _get_hyper (momentum opt)
             * default 0 (slots st !! (w, "momentum"%string))
             - _get_hyper (learning_rate opt)
               * decayed_gradient (_get_hyper (weight_decay opt)) g w0
    /\ w' == w0 + v'.
Proof.
  intros Hm Hn Hwd Hw.
  destruct (apply_gradients_single opt st w w0 g Hm Hn Hw)
    as (st' & Hst & Hv & Hw').
  eexists st', _, _.
  split; [exact Hst|]. split; [exact Hv|]. split; [exact Hw'|].
  split; [|ring].
  unfold decayed_gradient. rewrite Hwd. ring.
Qed.

(** C3.  The momentum rule is meant to run on the decayed gradient
    [g' = g + weight_decay * w]: [v' = momentum * v - learning_rate * g'],
    [w' = w + v'], the velocity starting at zero.  The step of the code
    hands the bare gradient [g] to the momentum kernel (the defect of C1).
    - At [SGD(learning_rate=0.1, weight_decay=0.5, momentum=0.9)], [w = 1],
      [g = 2], from a new velocity slot, the code sets
      [v' = 0.9 * 0 - 0.1 * 2 = -0.2] and [w' = 0.8], where the rule asks
      for [v' = 0.9 * 0 - 0.1 * 2.5 = -0.25] and [w' = 0.75].
    - For an optimizer whose [weight_decay] is 0, where [g' = g], every
      step follows the rule, the velocity read as zero when its slot is
      new.
    - The worked example ([learning_rate = 0.1], [momentum = 0.9],
      [weight_decay = 0], constant gradient 2, new slot) comes out as
      stated: [v = -0.2] and [w] down by [0.2] after one step, [v = -0.38]
      and [w] down by [0.58] after two. *)
Theorem momentum_rule_on_bare_gradient :
  (exists opt st' v' w',
      __init__ (PyNum 0.1) (PyNum 0.5) (PyNum 0.9) false = inr opt
      /\ apply_gradients opt [(2, "w"%string)]
           (mkStore {[ "w"%string := 1 ]} ∅) = Some st'
      /\ slots st' !! ("w"%string, "momentum"%string) = Some v'
      /\ vars st' !! "w"%string = Some w'
      /\ v' == _get_hyper (momentum opt) * 0
               - _get_hyper (learning_rate opt) * 2
      /\ w' == 1 + v'
      /\ decayed_gradient (_get_hyper (weight_decay opt)) 2 1 == 2.5
      /\ ~ v' == _get_hyper (momentum opt) * 0
                 - _get_hyper (learning_rate opt)
                   * decayed_gradient (_get_hyper (weight_decay opt)) 2 1
      /\ ~ w' == 1 + (_get_hyper (momentum opt) * 0
                      - _get_hyper (learning_rate opt)
                        * decayed_gradient (_get_hyper (weight_decay opt))
                            2 1))
  /\ (forall opt st w w0 g,
      _momentum opt = true -> nesterov opt = false ->
      _get_hyper (weight_decay opt) == 0 ->
      vars st !! w = Some w0 ->
      exists st' v' w',
        apply_gradients opt [(g, w)] st = Some st'
        /\ slots st' !! (w, "momentum"%string) = Some v'
        /\ vars st' !! w = Some w'
        /\ v' == _get_hyper (momentum opt)
                 * default 0 (slots st !! (w, "momentum"%string))
                 - _get_hyper (learning_rate opt)
                   * decayed_gradient (_get_hyper (weight_decay opt)) g w0
        /\ w' == w0 + v')
  /\ (forall w0 : Q,
      exists opt st1 st2 v1 w1 v2 w2,
        __init__ (PyNum 0.1) (PyNum 0) (PyNum 0.9) false = inr opt
        /\ decayed_gradient (_get_hyper (weight_decay opt)) 2 w0 == 2
        /\ apply_gradients opt [(2, "w"%string)]
             (mkStore {[ "w"%string := w0 ]} ∅) = Some st1
        /\ slots st1 !! ("w"%string, "momentum"%string) = Some v1
        /\ vars st1 !! "w"%string = Some w1
        /\ v1 == -0.2 /\ w1 == w0 - 0.2
        /\ apply_gradients opt [(2, "w"%string)] st1 = Some st2
        /\ slots st2 !! ("w"%string, "momentum"%string) = Some v2
        /\ vars st2 !! "w"%string = Some w2
        /\ v2 == -0.38 /\ w2 == w0 - 0.58).
Proof.
  split; [|split].
  - eexists _, _, _, _.
    split; [vm_compute; reflexivity|].
    split; [vm_compute; reflexivity|].
    split; [vm_compute; reflexivity|].
    split; [vm_compute; reflexivity|].
    repeat split; vm_compute; congruence.
  - intros opt st w w0 g.
    apply apply_gradients_single_no_decay.
  - intros w0.
    set (opt := mkSGD (PyNum 0.1) (PyNum 0) (PyNum 0.9) false true false).
    set (st0 := mkStore {[ "w"%string := w0 ]} ∅).
    destruct (apply_gradients_single opt st0 "w"%string w0 2
                eq_refl eq_refl (lookup_singleton_eq _ _))
      as (st1 & H1 & Hv1 & Hw1).
    destruct (apply_gradients_single opt st1 "w"%string _ 2
                eq_refl eq_refl Hw1)
      as (st2 & H2 & Hv2 & Hw2).
    rewrite Hv1 in Hv2, Hw2. subst st0. cbn [slots vars] in *.
    rewrite lookup_empty in Hv1, Hw1, Hv2, Hw2. simpl in *.
    eexists opt, st1, st2, _, _, _, _.
    split; [vm_compute; reflexivity|].
    split; [unfold decayed_gradient; simpl; ring|].
    split; [exact H1|]. split; [exact Hv1|]. split; [exact Hw1|].
    split; [lra|]. split; [lra|].
    split; [exact H2|]. split; [exact Hv2|]. split; [exact Hw2|].
    split; lra.
Qed.

Lemma momentum_rule_on_bare_gradient_witness :
  exists st' v' w',
    apply_gradients (mkSGD (PyNum 0.1) (PyNum 0) (PyNum 0.9) false true false)
      [(2, "w"%string)] (mkStore {[ "w"%string := 1 ]} ∅) = Some st'
    /\ slots st' !! ("w"%string, "momentum"%string) = Some v'
    /\ vars st' !! "w"%string = Some w'
    /\ v' == 0.9 * default 0 ((∅ : gmap (string * string) Q)
                               !! ("w"%string, "momentum"%string))
             - 0.1 * decayed_gradient 0 2 1
    /\ w' == 1 + v'.
Proof.
  apply (proj1 (proj2 momentum_rule_on_bare_gradient)
           (mkSGD (PyNum 0.1) (PyNum 0) (PyNum 0.9) false true false)
           (mkStore {[ "w"%string := 1 ]} ∅) "w"%string 1 2).
  - reflexivity.
  - reflexivity.
  - reflexivity.
  - vm_compute; reflexivity.
Defined.

End OptimizerFacts.

(* ===================================================================== *)
(** * Properties of the augmentation worker                               *)
(* ===================================================================== *)

Section AugmentFacts.

Import Augment.

Lemma slice_len_window dim off s :
  off + s <= dim -> slice_len dim off (Some (off + s)) = s.
Proof. unfold slice_len. lia. Qed.

(** A successful [random_crop] is a window inside the image. *)
Lemma random_crop_ok img s rnd pos :
  s <= height img -> s <= width img ->
  exists r c,
    random_crop img s rnd pos
    = (inr (slice2 img r (Some (r + s)) c (Some (c + s))), pos + 3)
    /\ r + s <= height img /\ c + s <= width img.
Proof.
  intros Hh Hw. unfold random_crop.
  destruct (Nat.leb_spec s (height img)); [|lia].
  destruct (Nat.leb_spec s (width img)); [|lia].
  cbn [andb]. eexists _, _. split; [reflexivity|].
  pose proof (Nat.mod_upper_bound (rnd pos) (height img - s + 1)).
  pose proof (Nat.mod_upper_bound (rnd (pos + 1)) (width img - s + 1)).
  lia.
Qed.

Lemma mean_centred_window img r c s :
  r + s <= height img -> c + s <= width img ->
  is_mean_centred_crop
    (tf_subtract (slice2 img r (Some (r + s)) c (Some (c + s))) IMAGENET_MEAN)
    img r c s.
Proof.
  intros Hr Hc. unfold is_mean_centred_crop. cbn [tf_subtract slice2 height width px].
  rewrite !slice_len_window by assumption. auto.
Qed.

Lemma image_ok_train img :
  image_ok true img = true <-> 227 <= height img /\ 227 <= width img.
Proof.
  unfold image_ok. rewrite andb_true_iff, !Nat.leb_le. reflexivity.
Qed.

Lemma image_ok_eval img :
  image_ok false img = true <-> height img = 256 /\ width img = 256.
Proof.
  unfold image_ok. rewrite andb_true_iff, !Nat.eqb_eq. reflexivity.
Qed.

(** [image_cropping] in training mode, on an image of at least 227 x 227. *)
Lemma image_cropping_train_ok img rnd pos :
  image_ok true img = true ->
  exists o1 o2,
    image_cropping img true rnd pos = (inr [o1; o2], pos + 6)
    /\ variant_spec true img 0 o1 /\ variant_spec true img 1 o2.
Proof.
  intros [Hh Hw]%image_ok_train.
  destruct (random_crop_ok img 227 rnd pos Hh Hw) as (r1 & c1 & E1 & Hr1 & Hc1).
  destruct (random_crop_ok (flip_left_right img) 227 rnd (pos + 3) Hh Hw)
    as (r2 & c2 & E2 & Hr2 & Hc2).
  unfold image_cropping. rewrite E1, E2.
  eexists _, _. split.
  - unfold tf_stack, same_shape. cbn [forallb tf_subtract height width slice2].
    rewrite !slice_len_window by assumption.
    rewrite !Nat.eqb_refl. cbn [andb].
    replace (pos + 3 + 3) with (pos + 6) by lia. reflexivity.
  - split.
    + exists r1, c1. repeat split; try assumption;
        apply (mean_centred_window img r1 c1 227 Hr1 Hc1).
    + exists r2, c2. repeat split; try assumption;
        apply (mean_centred_window (flip_left_right img) r2 c2 227 Hr2 Hc2).
Qed.

Lemma variant_spec_shape train img k out :
  variant_spec train img k out -> height out = 227 /\ width out = 227.
Proof.
  unfold variant_spec. destruct train.
  - intros (r & c & _ & _ & H). destruct k as [|[|k]]; try contradiction;
      destruct H as (? & ? & _); auto.
  - destruct (eval_crop_table !! k) as [[[m r] c]|]; [|contradiction].
    intros (? & ? & _); auto.
Qed.

(** [tf.stack] accepts images of one shape. *)
Lemma tf_stack_same_shape l s :
  Forall (fun o => height o = s /\ width o = s) l -> tf_stack l = inr l.
Proof.
  destruct l as [|x l]; [reflexivity|].
  intros [[Hx1 Hx2] Hl]%Forall_cons. unfold tf_stack.
  replace (forallb (same_shape x) l) with true; [reflexivity|].
  symmetry. apply forallb_forall. intros y Hy%list_elem_of_In.
  rewrite Forall_forall in Hl. destruct (Hl y Hy) as [Hy1 Hy2].
  unfold same_shape. rewrite Hx1, Hx2, Hy1, Hy2, Nat.eqb_refl. reflexivity.
Qed.

(** [image_cropping] in evaluation mode, on an image of 256 x 256: the ten
    slices all have shape 227 x 227, so [tf.stack] accepts them. *)
Lemma image_cropping_eval_ok img rnd pos :
  image_ok false img = true ->
  exists crops,
    image_cropping img false rnd pos = (inr crops, pos)
    /\ length crops = 10
    /\ forall k out, crops !! k = Some out -> variant_spec false img k out.
Proof.
  intros [Hh Hw]%image_ok_eval.
  unfold image_cropping. cbv beta zeta. cbn [app].
  match goal with |- context [tf_stack ?l] => set (crops := l) end.
  assert (Hspec : forall k out,
             crops !! k = Some out -> variant_spec false img k out).
  { intros k out Hk. unfold variant_spec, crops in *.
    do 10 (destruct k as [|k];
           [ injection Hk as <-; cbn [eval_crop_table lookup list_lookup];
             unfold is_mean_centred_crop, source_of;
             cbn [tf_subtract tf_cast slice2 flip_left_right height width px];
             unfold slice_len; rewrite ?Hh, ?Hw;
             split; [lia|]; split; [lia|]; intros i j _ _; reflexivity
           | cbn [lookup list_lookup] in Hk ]).
    discriminate Hk. }
  exists crops. split; [|split; [reflexivity|exact Hspec]].
  rewrite (tf_stack_same_shape crops 227); [reflexivity|].
  apply Forall_forall. intros o [k Hk]%list_elem_of_lookup.
  eapply variant_spec_shape, Hspec, Hk.
Qed.

(** In either mode an image of a fitting size gets its variants. *)
Lemma image_cropping_ok train img rnd pos :
  image_ok train img = true ->
  exists crops pos',
    image_cropping img train rnd pos = (inr crops, pos')
    /\ length crops = variants train
    /\ forall k out, crops !! k = Some out -> variant_spec train img k out.
Proof.
  destruct train; intros Hok.
  - destruct (image_cropping_train_ok img rnd pos Hok)
      as (o1 & o2 & E & H1 & H2).
    exists [o1; o2], (pos + 6). split; [exact E|]. split; [reflexivity|].
    intros [|[|k]] out Hk; try discriminate Hk; injection Hk as <-; assumption.
  - destruct (image_cropping_eval_ok img rnd pos Hok) as (crops & E & Hl & Hv).
    exists crops, pos. auto.
Qed.

(** A failing [image_cropping] raises the exception of its mode. *)
Lemma image_cropping_error train img rnd pos e pos' :
  image_cropping img train rnd pos = (inl e, pos') -> e = mode_error train.
Proof.
  destruct train.
  - destruct (image_ok true img) eqn:Hok.
    + destruct (image_cropping_train_ok img rnd pos Hok) as (o1 & o2 & E & _).
      rewrite E. discriminate.
    + unfold image_cropping, random_crop.
      change ((227 <=? height img) && (227 <=? width img))
        with (image_ok true img).
      rewrite Hok. intros [= <- _]. reflexivity.
  - unfold image_cropping, tf_stack. cbv beta zeta. cbn [app].
    match goal with
    | |- context [forallb ?f ?l] => destruct (forallb f l)
    end; intros [= <-]. reflexivity.
Qed.

(** An image that is too small along an axis makes [image_cropping] raise:
    the size assertion of [random_crop] in training mode, the shape check of
    [tf.stack] in evaluation mode (the open-ended slices come out shorter
    than the others). *)
Lemma image_cropping_too_small train img rnd pos :
  0 < height img -> 0 < width img ->
  height img < 227 \/ width img < 227 ->
  exists pos', image_cropping img train rnd pos = (inl (mode_error train), pos').
Proof.
  intros Hh Hw Hsmall.
  destruct (image_cropping img train rnd pos) as [[e|crops] pos'] eqn:E.
  { rewrite (image_cropping_error _ _ _ _ _ _ E). eauto. }
  exfalso. destruct train.
  - unfold image_cropping, random_crop in E.
    destruct (Nat.leb_spec 227 (height img)), (Nat.leb_spec 227 (width img));
      cbn [andb] in E; try discriminate E; lia.
  - unfold image_cropping, tf_stack in E. cbv beta zeta in E. cbn [app] in E.
    match type of E with
    | context [forallb ?f ?l] => destruct (forallb f l) eqn:F
    end; [|discriminate E].
    cbn [forallb] in F.
    apply andb_true_iff in F as [F1 F].
    apply andb_true_iff in F as [F2 _].
    unfold same_shape in F1, F2.
    cbn [tf_subtract tf_cast slice2 height width] in F1, F2.
    apply andb_true_iff in F1 as [F1 _].
    apply andb_true_iff in F2 as [_ F2].
    apply Nat.eqb_eq in F1, F2. unfold slice_len in F1, F2. lia.
Qed.

(** The loop of [img_preprocessing] on indices whose images fit: the
    output lists grow by one block of variants, and one block of copies of
    the label, per index. *)
Lemma preprocessing_loop_ok train images labels rnd idx :
  forall acc pos,
    Forall (fun i => exists img lab,
                images !! i = Some img /\ labels !! i = Some lab
                /\ image_ok train img = true) idx ->
    exists (blocks : list (list image * label)) pos',
      preprocessing_loop images labels train rnd idx acc pos
      = (inr (fst acc ++ mjoin (map fst blocks),
              snd acc
              ++ mjoin (map (fun b => map (fun _ => snd b) (fst b)) blocks)),
         pos')
      /\ Forall2 (fun i b =>
                   exists img,
                     images !! i = Some img /\ labels !! i = Some (snd b)
                     /\ length (fst b) = variants train
                     /\ forall k out, fst b !! k = Some out ->
                                      variant_spec train img k out)
                 idx blocks.
Proof.
  induction idx as [|i idx IH]; intros [accI accL] pos Hall.
  - exists [], pos. cbn. rewrite !app_nil_r. split; [reflexivity|constructor].
  - apply Forall_cons in Hall as [(img & lab & Hi & Hl & Hok) Hall].
    destruct (image_cropping_ok train img rnd pos Hok)
      as (crops & pos1 & E & Hlen & Hv).
    destruct (IH (accI ++ crops, accL ++ map (fun _ => lab) crops) pos1 Hall)
      as (blocks & pos' & Eloop & HF).
    exists ((crops, lab) :: blocks), pos'. split.
    + cbn [preprocessing_loop]. rewrite Hi, Hl, E. cbn [fst snd].
      rewrite Eloop. cbn [fst snd map mjoin list_join].
      rewrite !app_assoc. reflexivity.
    + constructor; [|exact HF]. exists img. cbn [fst snd]. auto.
Qed.

(** The loop stops with the exception of the mode as soon as one listed
    image does not get its crops. *)
Lemma preprocessing_loop_fails train images labels rnd idx :
  forall acc pos i img,
    Forall (fun j => is_Some (images !! j) /\ is_Some (labels !! j)) idx ->
    i ∈ idx -> images !! i = Some img ->
    (forall p, exists p',
        image_cropping img train rnd p = (inl (mode_error train), p')) ->
    exists pos',
      preprocessing_loop images labels train rnd idx acc pos
      = (inl (mode_error train), pos').
Proof.
  induction idx as [|j idx IH]; intros acc pos i img Hall Hin Hi Hfail.
  - inversion Hin.
  - apply Forall_cons in Hall as [[[imj Hj] [laj Hlj]] Hall].
    cbn [preprocessing_loop]. rewrite Hj, Hlj.
    destruct (image_cropping imj train rnd pos) as [[e|crops] pos1] eqn:E.
    + rewrite (image_cropping_error _ _ _ _ _ _ E). eauto.
    + apply elem_of_cons in Hin as [->|Hin].
      * rewrite Hi in Hj. injection Hj as <-.
        destruct (Hfail pos) as [p' E']. rewrite E' in E. discriminate E.
      * eapply IH; eauto.
Qed.

(** The worker on a batch whose images fit, in either mode. *)
Lemma img_preprocessing_ok train q images labels rnd pos :
  length images = length labels ->
  Forall (fun img => image_ok train img = true) images ->
  exists outs labs pos',
    img_preprocessing q images labels train rnd pos
    = (inr (q ++ [(outs, labs)]), pos')
    /\ length outs = variants train * length images
    /\ length labs = variants train * length images
    /\ Forall (fun o => height o = 227 /\ width o = 227) outs
    /\ forall i img lab k,
        images !! i = Some img -> labels !! i = Some lab ->
        k < variants train ->
        labs !! (i * variants train + k) = Some lab
        /\ exists out, outs !! (i * variants train + k) = Some out
                       /\ variant_spec train img k out.
Proof.
  intros Hlen Hall.
  assert (Hidx : Forall (fun i => exists img lab,
                   images !! i = Some img /\ labels !! i = Some lab
                   /\ image_ok train img = true) (seq 0 (length labels))).
  { apply Forall_forall. intros i Hi%elem_of_seq.
    destruct (lookup_lt_is_Some_2 images i) as [img Hi1]; [lia|].
    destruct (lookup_lt_is_Some_2 labels i) as [lab Hi2]; [lia|].
    exists img, lab. repeat split; try assumption.
    rewrite Forall_forall in Hall. apply Hall.
    eapply list_elem_of_lookup_2; eassumption. }
  destruct (preprocessing_loop_ok train images labels rnd _ ([], []) pos Hidx)
    as (blocks & pos' & E & HF).
  cbn [fst snd app] in E.
  set (outs := mjoin (map fst blocks)) in *.
  set (labs := mjoin (map (fun b => map (fun _ => snd b) (fst b)) blocks)) in *.
  assert (Hnb : length blocks = length images).
  { apply Forall2_length in HF. rewrite length_seq in HF. lia. }
  assert (Hbl : Forall (fun l : list image => length l = variants train)
                  (map fst blocks)).
  { apply Forall_forall. intros l (b & -> & Hb)%list_elem_of_fmap.
    apply list_elem_of_lookup in Hb as [i Hb].
    destruct (Forall2_lookup_r _ _ _ _ _ HF Hb) as (j & _ & img & _ & _ & H & _).
    exact H. }
  assert (Hll : Forall (fun l : list label => length l = variants train)
                  (map (fun b => map (fun _ => snd b) (fst b)) blocks)).
  { apply Forall_forall. intros l (b & -> & Hb)%list_elem_of_fmap.
    apply list_elem_of_lookup in Hb as [i Hb].
    destruct (Forall2_lookup_r _ _ _ _ _ HF Hb) as (j & _ & img & _ & _ & H & _).
    rewrite length_map. exact H. }
  assert (Hblock : forall i img lab,
             images !! i = Some img -> labels !! i = Some lab ->
             exists b, blocks !! i = Some b /\ snd b = lab
                       /\ length (fst b) = variants train
                       /\ forall k out, fst b !! k = Some out ->
                                        variant_spec train img k out).
  { intros i img lab Hi Hl.
    assert (Hs : seq 0 (length labels) !! i = Some i).
    { apply lookup_seq. split; [lia|]. eapply lookup_lt_Some; eassumption. }
    destruct (Forall2_lookup_l _ _ _ _ _ HF Hs)
      as (b & Hb & img' & Hi' & Hl' & Hlb & Hv).
    rewrite Hi in Hi'. injection Hi' as <-.
    rewrite Hl in Hl'. injection Hl' as ->.
    exists b. auto. }
  exists outs, labs, pos'. split.
  { unfold img_preprocessing. rewrite E. reflexivity. }
  split.
  { unfold outs. rewrite length_join, (sum_list_fmap_same (variants train)).
    - rewrite length_map. lia.
    - exact Hbl. }
  split.
  { unfold labs. rewrite length_join, (sum_list_fmap_same (variants train)).
    - rewrite length_map. lia.
    - exact Hll. }
  split.
  { apply Forall_forall. intros o Ho.
    apply list_elem_of_lookup in Ho as [n Ho].
    apply join_lookup_Some in Ho as (j & l & k & Hj & Hk & _).
    apply list_lookup_fmap_Some in Hj as (b & -> & Hb).
    destruct (Forall2_lookup_r _ _ _ _ _ HF Hb) as (i & _ & img & _ & _ & _ & Hv).
    eapply variant_spec_shape, Hv, Hk. }
  intros i img lab k Hi Hl Hk.
  destruct (Hblock i img lab Hi Hl) as (b & Hb & Hlab & Hlb & Hv).
  split.
  - apply (join_lookup_Some_same_length' (variants train)); [exact Hll|exact Hk|].
    exists (map (fun _ => snd b) (fst b)). split.
    + apply list_lookup_fmap_Some. eauto.
    + destruct (lookup_lt_is_Some_2 (fst b) k) as [o Ho]; [lia|].
      apply list_lookup_fmap_Some. exists o. split; [congruence|exact Ho].
  - destruct (lookup_lt_is_Some_2 (fst b) k) as [o Ho]; [lia|].
    exists o. split; [|eapply Hv; exact Ho].
    apply (join_lookup_Some_same_length' (variants train)); [exact Hbl|exact Hk|].
    exists (fst b). split; [|exact Ho].
    apply list_lookup_fmap_Some. eauto.
Qed.

(** ** The variants, pixel by pixel *)

Lemma psub_mean p : psub p IMAGENET_MEAN = mean_subtracted p.
Proof. destruct p as [[r g] b]. reflexivity. Qed.

Lemma crop_minus_mean_of out img r c s :
  is_mean_centred_crop out img r c s -> is_crop_minus_mean out img r c s.
Proof.
  intros (Hh & Hw & Hpx). split; [exact Hh|]. split; [exact Hw|].
  intros i j Hi Hj. rewrite (Hpx i j Hi Hj). apply psub_mean.
Qed.

Lemma mirror_crop_minus_mean_of out img r c s :
  is_mean_centred_crop out (flip_left_right img) r c s ->
  is_mirror_crop_minus_mean out img r c s.
Proof.
  intros (Hh & Hw & Hpx). split; [exact Hh|]. split; [exact Hw|].
  intros i j Hi Hj. rewrite (Hpx i j Hi Hj). apply psub_mean.
Qed.

(** [random_crop] with its offsets: the two numbers read from the random
    stream, each modulo the number of positions along its axis. *)
Lemma random_crop_at img s rnd pos :
  s <= height img -> s <= width img ->
  let r := rnd pos mod (height img - s + 1) in
  let c := rnd (pos + 1) mod (width img - s + 1) in
  random_crop img s rnd pos
  = (inr (slice2 img r (Some (r + s)) c (Some (c + s))), pos + 3)
  /\ r + s <= height img /\ c + s <= width img.
Proof.
  intros Hh Hw r c. unfold random_crop.
  destruct (Nat.leb_spec s (height img)); [|lia].
  destruct (Nat.leb_spec s (width img)); [|lia].
  cbn [andb]. split; [reflexivity|].
  pose proof (Nat.mod_upper_bound (rnd pos) (height img - s + 1)).
  pose proof (Nat.mod_upper_bound (rnd (pos + 1)) (width img - s + 1)).
  subst r c. lia.
Qed.

(** The two training variants of an image, when the random stream is read
    from position [pos]. *)
Lemma image_cropping_train_at img rnd pos :
  227 <= height img -> 227 <= width img ->
  exists o1 o2,
    image_cropping img true rnd pos = (inr [o1; o2], pos + 6)
    /\ is_crop_minus_mean o1 img
         (rnd pos mod (height img - 227 + 1))
         (rnd (pos + 1) mod (width img - 227 + 1)) 227
    /\ is_mirror_crop_minus_mean o2 img
         (rnd (pos + 3) mod (height img - 227 + 1))
         (rnd (pos + 4) mod (width img - 227 + 1)) 227.
Proof.
  intros Hh Hw.
  destruct (random_crop_at img 227 rnd pos Hh Hw) as (E1 & Hr1 & Hc1).
  destruct (random_crop_at (flip_left_right img) 227 rnd (pos + 3) Hh Hw)
    as (E2 & Hr2 & Hc2).
  cbn [flip_left_right height width] in E2, Hr2, Hc2.
  replace (pos + 3 + 1) with (pos + 4) in E2, Hc2 by lia.
  unfold image_cropping. rewrite E1, E2.
  eexists _, _. split; [|split].
  - unfold tf_stack, same_shape. cbn [forallb tf_subtract height width slice2].
    rewrite !slice_len_window by assumption.
    rewrite !Nat.eqb_refl. cbn [andb].
    replace (pos + 3 + 3) with (pos + 6) by lia. reflexivity.
  - apply crop_minus_mean_of, mean_centred_window; assumption.
  - apply mirror_crop_minus_mean_of, mean_centred_window; assumption.
Qed.

Lemma flat_map_pair_lookup {A B : Type} (f g : A -> B) (l : list A) :
  forall j,
    flat_map (fun b => [f b; g b]) l !! (2 * j) = f <$> l !! j
    /\ flat_map (fun b => [f b; g b]) l !! (2 * j + 1) = g <$> l !! j.
Proof.
  induction l as [|x l IH]; intros j.
  - split; reflexivity.
  - destruct j as [|j].
    + split; reflexivity.
    + replace (2 * S j) with (S (S (2 * j))) by lia.
      replace (S (S (2 * j)) + 1) with (S (S (2 * j + 1))) by lia.
      apply (IH j).
Qed.

Lemma flat_map_pair_length {A B : Type} (f g : A -> B) (l : list A) :
  length (flat_map (fun b => [f b; g b]) l) = 2 * length l.
Proof. induction l as [|x l IH]; cbn [flat_map app length]; lia. Qed.

(** The loop of the worker in training mode: the image at position [j] of
    the index list is cropped with the random stream read from
    [pos + 6 * j]. *)
Lemma preprocessing_loop_train images labels rnd idx :
  forall acc pos,
    Forall (fun i => exists img lab,
                images !! i = Some img /\ labels !! i = Some lab
                /\ 227 <= height img /\ 227 <= width img) idx ->
    exists blocks : list (image * image * label),
      preprocessing_loop images labels true rnd idx acc pos
      = (inr (fst acc ++ flat_map (fun b => [fst (fst b); snd (fst b)]) blocks,
              snd acc ++ flat_map (fun b => [snd b; snd b]) blocks),
         pos + 6 * length idx)
      /\ length blocks = length idx
      /\ forall j i img lab p,
          idx !! j = Some i -> images !! i = Some img ->
          labels !! i = Some lab -> p = pos + 6 * j ->
          exists o1 o2,
            blocks !! j = Some (o1, o2, lab)
            /\ is_crop_minus_mean o1 img
                 (rnd p mod (height img - 227 + 1))
                 (rnd (p + 1) mod (width img - 227 + 1)) 227
            /\ is_mirror_crop_minus_mean o2 img
                 (rnd (p + 3) mod (height img - 227 + 1))
                 (rnd (p + 4) mod (width img - 227 + 1)) 227.
Proof.
  induction idx as [|i0 idx IH]; intros [accI accL] pos Hall.
  - exists []. cbn [preprocessing_loop flat_map fst snd length].
    rewrite !app_nil_r, Nat.mul_0_r, Nat.add_0_r.
    split; [reflexivity|]. split; [reflexivity|].
    intros j i img lab p Hj. inversion Hj.
  - apply Forall_cons in Hall as [(img0 & lab0 & Hi0 & Hl0 & Hh & Hw) Hall].
    destruct (image_cropping_train_at img0 rnd pos Hh Hw)
      as (o1 & o2 & E & H1 & H2).
    destruct (IH (accI ++ [o1; o2], accL ++ [lab0; lab0]) (pos + 6) Hall)
      as (blocks & Eloop & Hnb & Hblocks).
    exists ((o1, o2, lab0) :: blocks). split; [|split].
    + cbn [preprocessing_loop]. rewrite Hi0, Hl0, E. cbn [fst snd map].
      rewrite Eloop. cbn [fst snd flat_map length app].
      rewrite <- !app_assoc.
      replace (pos + 6 + 6 * length idx) with (pos + 6 * S (length idx))
        by lia.
      reflexivity.
    + cbn [length]. by rewrite Hnb.
    + intros j i img lab p Hj Hi Hl Hp. destruct j as [|j].
      * cbn in Hj. injection Hj as <-.
        rewrite Hi0 in Hi. injection Hi as <-.
        rewrite Hl0 in Hl. injection Hl as <-.
        replace p with pos by lia.
        exists o1, o2. split; [reflexivity|]. split; assumption.
      * cbn in Hj.
        destruct (Hblocks j i img lab p Hj Hi Hl) as (a & b & Hb & Ha1 & Ha2);
          [lia|].
        exists a, b. split; [exact Hb|]. split; assumption.
Qed.

(** C6.  Training mode: for a batch of [N] images of at least 227 x 227
    with one label each, the worker appends one pair of lists to [q]; it
    holds [2N] images and [2N] labels; entries [2i] and [2i+1] of the labels
    are label [i].  Image [2i] is the 227 x 227 window of image [i] at the
    row and column offsets read from the random stream (its numbers at
    [pos + 6i] and [pos + 6i + 1], each modulo the number of positions
    along the axis); image [2i+1] is the 227 x 227 window of the
    horizontal mirror of image [i] at the offsets read at [pos + 6i + 3]
    and [pos + 6i + 4]; every pixel of either has
    [(122.10927936917298, 116.5416959998387, 102.61744377213829)]
    subtracted channel by channel. *)
Theorem training_augmentation :
  forall q images labels rnd pos,
    length images = length labels ->
    Forall (fun img => 227 <= height img /\ 227 <= width img) images ->
    exists outs labs,
      img_preprocessing q images labels true rnd pos
      = (inr (q ++ [(outs, labs)]), pos + 6 * length images)
      /\ length outs = 2 * length images
      /\ length labs = 2 * length images
      /\ forall i img lab,
          images !! i = Some img -> labels !! i = Some lab ->
          labs !! (2 * i) = Some lab /\ labs !! (2 * i + 1) = Some lab
          /\ exists o1 o2,
              outs !! (2 * i) = Some o1 /\ outs !! (2 * i + 1) = Some o2
              /\ let p := pos + 6 * i in
                 let r1 := rnd p mod (height img - 227 + 1) in
                 let c1 := rnd (p + 1) mod (width img - 227 + 1) in
                 let r2 := rnd (p + 3) mod (height img - 227 + 1) in
                 let c2 := rnd (p + 4) mod (width img - 227 + 1) in
                 r1 + 227 <= height img /\ c1 + 227 <= width img
                 /\ r2 + 227 <= height img /\ c2 + 227 <= width img
                 /\ height o1 = 227 /\ width o1 = 227
                 /\ height o2 = 227 /\ width o2 = 227
                 /\ forall a b, a < 227 -> b < 227 ->
                      px o1 a b
                      = (let '(x, y, z) := px img (r1 + a) (c1 + b) in
                         (x - 122.10927936917298, y - 116.5416959998387,
                          z - 102.61744377213829)%Q)
                      /\ px o2 a b
                         = (let '(x, y, z) :=
                              px img (r2 + a) (width img - 1 - (c2 + b)) in
                            (x - 122.10927936917298, y - 116.5416959998387,
                             z - 102.61744377213829)%Q).
Proof.
  intros q images labels rnd pos Hlen Hall.
  assert (Hidx : Forall (fun i => exists img lab,
                   images !! i = Some img /\ labels !! i = Some lab
                   /\ 227 <= height img /\ 227 <= width img)
                   (seq 0 (length labels))).
  { apply Forall_forall. intros i Hi%elem_of_seq.
    destruct (lookup_lt_is_Some_2 images i) as [img Hi1]; [lia|].
    destruct (lookup_lt_is_Some_2 labels i) as [lab Hi2]; [lia|].
    exists img, lab. split; [exact Hi1|]. split; [exact Hi2|].
    rewrite Forall_forall in Hall. apply Hall.
    eapply list_elem_of_lookup_2; eassumption. }
  destruct (preprocessing_loop_train images labels rnd _ ([], []) pos Hidx)
    as (blocks & E & Hnb & Hblocks).
  rewrite length_seq in E, Hnb. cbn [fst snd app] in E.
  eexists _, _. split.
  { unfold img_preprocessing. rewrite E, Hlen. reflexivity. }
  split; [rewrite flat_map_pair_length; lia|].
  split; [rewrite flat_map_pair_length; lia|].
  intros i img lab Hi Hl.
  assert (Hs : seq 0 (length labels) !! i = Some i).
  { apply lookup_seq. split; [lia|]. eapply lookup_lt_Some; eassumption. }
  destruct (Hblocks i i img lab (pos + 6 * i) Hs Hi Hl eq_refl)
    as (o1 & o2 & Hb & (Hh1 & Hw1 & P1) & (Hh2 & Hw2 & P2)).
  destruct (flat_map_pair_lookup (fun b : image * image * label => snd b)
              (fun b => snd b) blocks i) as [L0 L1].
  destruct (flat_map_pair_lookup (fun b : image * image * label => fst (fst b))
              (fun b => snd (fst b)) blocks i) as [O0 O1].
  rewrite Hb in L0, L1, O0, O1.
  split; [exact L0|]. split; [exact L1|].
  exists o1, o2. split; [exact O0|]. split; [exact O1|].
  cbv zeta.
  assert (Hhi : 227 <= height img /\ 227 <= width img).
  { rewrite Forall_forall in Hall. apply Hall.
    eapply list_elem_of_lookup_2; eassumption. }
  pose proof (Nat.mod_upper_bound (rnd (pos + 6 * i)) (height img - 227 + 1)).
  pose proof (Nat.mod_upper_bound (rnd (pos + 6 * i + 1))
                (width img - 227 + 1)).
  pose proof (Nat.mod_upper_bound (rnd (pos + 6 * i + 3))
                (height img - 227 + 1)).
  pose proof (Nat.mod_upper_bound (rnd (pos + 6 * i + 4))
                (width img - 227 + 1)).
  split; [lia|]. split; [lia|]. split; [lia|]. split; [lia|].
  split; [exact Hh1|]. split; [exact Hw1|].
  split; [exact Hh2|]. split; [exact Hw2|].
  intros a b Ha Hb'. split.
  - rewrite (P1 a b Ha Hb'). reflexivity.
  - rewrite (P2 a b Ha Hb'). reflexivity.
Qed.

Lemma training_augmentation_witness :
  exists outs labs,
    img_preprocessing [] [sample_image; sample_image] [7%Z; 3%Z] true
      (fun n => 37 * n + 5) 0
    = (inr ([] ++ [(outs, labs)]), 0 + 6 * 2)
    /\ length outs = 2 * 2
    /\ length labs = 2 * 2
    /\ labs !! 2 = Some 3%Z /\ labs !! 3 = Some 3%Z
    /\ exists o1 o2,
        outs !! 2 = Some o1 /\ outs !! 3 = Some o2
        /\ px o1 0 0
           = (inject_Z (Z.of_nat ((37 * 6 + 5) mod 30 + 0)) - 122.10927936917298,
              inject_Z (Z.of_nat ((37 * 7 + 5) mod 30 + 0)) - 116.5416959998387,
              0 - 102.61744377213829)%Q
        /\ px o2 0 0
           = (inject_Z (Z.of_nat ((37 * 9 + 5) mod 30 + 0)) - 122.10927936917298,
              inject_Z
                (Z.of_nat (256 - 1 - ((37 * 10 + 5) mod 30 + 0)))
              - 116.5416959998387,
              0 - 102.61744377213829)%Q.
Proof.
  destruct (training_augmentation [] [sample_image; sample_image]
              [7%Z; 3%Z] (fun n => 37 * n + 5) 0 eq_refl)
    as (outs & labs & E & Ho & Hl & Hv).
  { repeat constructor; cbn [sample_image height width]; lia. }
  exists outs, labs. split; [exact E|]. split; [exact Ho|]. split; [exact Hl|].
  destruct (Hv 1 sample_image 3%Z eq_refl eq_refl)
    as (L0 & L1 & o1 & o2 & O0 & O1 & _ & _ & _ & _ & _ & _ & _ & _ & Hpx).
  split; [exact L0|]. split; [exact L1|].
  exists o1, o2. split; [exact O0|]. split; [exact O1|].
  destruct (Hpx 0 0) as [P1 P2]; [lia|lia|].
  split; [exact P1|exact P2].
Defined.




(** C8.  An image that is smaller than the crop size along either axis
    makes the worker raise for the whole batch, in training and in
    evaluation mode alike: [img_preprocessing] ends in the exception of the
    mode ([random_crop]'s size assertion, or [tf.stack]'s shape check),
    nothing is appended to [q], and the worker thread ends in a crash. *)
Theorem too_small_image_fails :
  forall train q0 images labels rnd pos i img,
    length images = length labels ->
    images !! i = Some img ->
    0 < height img -> 0 < width img ->
    height img < 227 \/ width img < 227 ->
    (exists pos',
        img_preprocessing q0 images labels train rnd pos
        = (inl (mode_error train), pos'))
    /\ forall st,
        Pipeline.q (Pipeline.run_worker rnd train (images, labels) st)
        = Pipeline.q st
        /\ Pipeline.trace (Pipeline.run_worker rnd train (images, labels) st)
           = Pipeline.trace st ++ [Pipeline.EvCrash (mode_error train)].
Proof.
  intros train q0 images labels rnd pos i img Hlen Hi Hh Hw Hsmall.
  assert (Hloop : forall p, exists p',
             preprocessing_loop images labels train rnd
               (seq 0 (length labels)) ([], []) p
             = (inl (mode_error train), p')).
  { intros p.
    apply (preprocessing_loop_fails train images labels rnd _ _ p i img).
    - apply Forall_forall. intros j Hj%elem_of_seq.
      split; apply lookup_lt_is_Some_2; lia.
    - apply elem_of_seq. apply lookup_lt_Some in Hi. lia.
    - exact Hi.
    - intros p0. apply image_cropping_too_small; assumption. }
  split.
  - destruct (Hloop pos) as [p' E]. exists p'.
    unfold img_preprocessing. rewrite E. reflexivity.
  - intros st. destruct (Hloop (Pipeline.pos st)) as [p' E].
    unfold Pipeline.run_worker, img_preprocessing. cbn [fst snd].
    rewrite E. split; reflexivity.
Qed.

Lemma too_small_image_fails_witness :
  (exists pos',
      img_preprocessing [] [sample_image; small_image] [1%Z; 2%Z] false
        (fun n => n) 0
      = (inl (mode_error false), pos'))
  /\ forall st,
      Pipeline.q (Pipeline.run_worker (fun n => n) false
                    ([sample_image; small_image], [1%Z; 2%Z]) st)
      = Pipeline.q st
      /\ Pipeline.trace (Pipeline.run_worker (fun n => n) false
                           ([sample_image; small_image], [1%Z; 2%Z]) st)
         = Pipeline.trace st ++ [Pipeline.EvCrash (mode_error false)].
Proof.
  apply (too_small_image_fails false [] [sample_image; small_image]
           [1%Z; 2%Z] (fun n => n) 0 1 small_image).
  - reflexivity.
  - reflexivity.
  - cbn [small_image height]. lia.
  - cbn [small_image width]. lia.
  - left. cbn [small_image height]. lia.
Defined.

End AugmentFacts.

(* ===================================================================== *)
(** * Properties of the double-buffer loop                                *)
(* ===================================================================== *)

Section PipelineFacts.

Import Augment Pipeline.

(** ** [Dataset.batch] *)

Lemma batch_fuel_drop {A : Type} (n : nat) :
  0 < n ->
  forall fuel (l : list A),
    length l <= fuel ->
    length (batch_fuel fuel n true l) = length l / n
    /\ Forall (fun s => length s = n) (batch_fuel fuel n true l)
    /\ mjoin (batch_fuel fuel n true l) = take (length l / n * n) l.
Proof.
  intros Hn. induction fuel as [|fuel IH]; intros l Hl.
  - destruct l; [|cbn in Hl; lia]. cbn.
    rewrite Nat.Div0.div_0_l. auto.
  - destruct l as [|x l]; [cbn; rewrite Nat.Div0.div_0_l; auto|].
    cbn [batch_fuel]. set (l0 := x :: l) in *.
    destruct (Nat.leb_spec n (length l0)) as [Hle|Hlt].
    + destruct (IH (drop n l0)) as (H1 & H2 & H3).
      { rewrite length_drop. unfold l0 in *. cbn [length] in *. lia. }
      rewrite length_drop in H1, H3.
      assert (Hdiv : length l0 / n = S ((length l0 - n) / n)).
      { replace (length l0) with ((length l0 - n) + 1 * n) at 1 by lia.
        rewrite Nat.div_add by lia. lia. }
      split; [cbn [length]; rewrite H1, Hdiv; reflexivity|].
      split.
      * constructor; [apply length_take_le; exact Hle|exact H2].
      * change (mjoin (?a :: ?r)) with (a ++ mjoin r).
        rewrite H3, take_take_drop, Hdiv.
        f_equal; lia.
    + rewrite Nat.div_small by exact Hlt. cbn. auto.
Qed.

Lemma batch_fuel_keep {A : Type} (n : nat) :
  0 < n ->
  forall fuel (l : list A),
    length l <= fuel -> mjoin (batch_fuel fuel n false l) = l.
Proof.
  intros Hn. induction fuel as [|fuel IH]; intros l Hl.
  - destruct l; [reflexivity|cbn in Hl; lia].
  - destruct l as [|x l]; [reflexivity|].
    cbn [batch_fuel]. set (l0 := x :: l) in *.
    destruct (Nat.leb_spec n (length l0)) as [Hle|Hlt].
    + change (mjoin (?a :: ?r)) with (a ++ mjoin r). rewrite IH.
      * apply take_drop.
      * rewrite length_drop. unfold l0 in *. cbn [length] in *. lia.
    + change (mjoin [l0]) with (l0 ++ []). apply app_nil_r.
Qed.

(** The re-split of [m] samples feeds [m / 128] sub-batches of 128. *)
Lemma batch_drop_remainder {A : Type} (l : list A) :
  length (batch BATCH_SIZE true l) = length l / BATCH_SIZE
  /\ Forall (fun s => length s = BATCH_SIZE) (batch BATCH_SIZE true l)
  /\ mjoin (batch BATCH_SIZE true l)
     = take (length l / BATCH_SIZE * BATCH_SIZE) l.
Proof.
  apply batch_fuel_drop; [unfold BATCH_SIZE; lia|reflexivity].
Qed.

Lemma batch_drop_small {A : Type} (l : list A) :
  length l < BATCH_SIZE -> batch BATCH_SIZE true l = [].
Proof.
  intros Hlt. destruct (batch_drop_remainder l) as (H & _ & _).
  rewrite Nat.div_small in H by exact Hlt.
  by apply nil_length_inv.
Qed.

(** ** Observations distribute over the concatenation of traces *)

Lemma started_app a b : started (a ++ b) = started a ++ started b.
Proof. apply flat_map_app. Qed.

Lemma appended_app a b : appended (a ++ b) = appended a ++ appended b.
Proof. apply flat_map_app. Qed.

Lemma popped_app a b : popped (a ++ b) = popped a ++ popped b.
Proof. apply flat_map_app. Qed.

Lemma stepped_app a b : stepped (a ++ b) = stepped a ++ stepped b.
Proof. apply flat_map_app. Qed.

Lemma in_flight_app a b n :
  in_flight n (a ++ b) = in_flight (in_flight n a) b.
Proof.
  revert n. induction a as [|e a IH]; intros n; [reflexivity|].
  destruct e; cbn; apply IH.
Qed.

Lemma at_most_one_in_flight_app a b n :
  at_most_one_in_flight n (a ++ b)
  = at_most_one_in_flight n a && at_most_one_in_flight (in_flight n a) b.
Proof.
  revert n. induction a as [|e a IH]; intros n.
  - cbn [app at_most_one_in_flight in_flight].
    destruct b as [|e b]; cbn [at_most_one_in_flight];
      destruct (n <=? 1); reflexivity.
  - destruct e; cbn [app at_most_one_in_flight in_flight];
      rewrite IH, andb_assoc; reflexivity.
Qed.

(** Steps of the main thread touch neither the slot nor the worker. *)
Lemma steps_neutral subs :
  started (map EvStep subs) = []
  /\ appended (map EvStep subs) = []
  /\ popped (map EvStep subs) = []
  /\ stepped (map EvStep subs) = subs
  /\ forallb slot_ok (map EvStep subs) = true
  /\ forall n, in_flight n (map EvStep subs) = n
               /\ at_most_one_in_flight n (map EvStep subs) = (n <=? 1).
Proof.
  induction subs as [|s subs (H1 & H2 & H3 & H4 & H5 & H6)].
  - cbn. repeat split; try reflexivity. apply andb_true_r.
  - cbn [map started appended popped stepped flat_map forallb slot_ok app].
    fold (started (map EvStep subs)). fold (appended (map EvStep subs)).
    fold (popped (map EvStep subs)). fold (stepped (map EvStep subs)).
    rewrite H1, H2, H3, H4, H5. repeat split; try reflexivity.
    + cbn. apply H6.
    + cbn [at_most_one_in_flight]. destruct (H6 n) as [_ ->].
      apply andb_diag.
Qed.

(** ** The steps of the loop *)

Lemma pop_and_split_ok shuffle st b :
  q st = [b] -> aug_ok b ->
  pop_and_split shuffle st
  = inr (sub_batches shuffle (nshuffle st) b,
         mkLoop [] (pos st) (S (nshuffle st)) (trace st ++ [EvPop b []])).
Proof.
  intros Hq (Hlen & Hpos & Hshape). unfold pop_and_split. rewrite Hq.
  destruct b as [ims labs]. cbn [rev app fst snd] in *.
  rewrite (tf_stack_same_shape ims 227 Hshape).
  destruct (Nat.eqb_spec (length labs) 0) as [H0|_]; [lia|]. reflexivity.
Qed.

Lemma pop_and_split_empty shuffle st :
  q st = [] -> pop_and_split shuffle st = inl IndexError.
Proof. intros Hq. unfold pop_and_split. rewrite Hq. reflexivity. Qed.

Lemma batch_ok_inv train raw :
  batch_ok train raw = true ->
  length (fst raw) = length (snd raw) /\ 0 < length (snd raw)
  /\ Forall (fun img => image_ok train img = true) (fst raw).
Proof.
  unfold batch_ok. rewrite !andb_true_iff, negb_true_iff, Nat.eqb_eq.
  intros [[H1 H2] H3]. apply Nat.eqb_neq in H2.
  split; [exact H1|]. split; [lia|].
  apply Forall_forall. intros img Hin%list_elem_of_In.
  rewrite forallb_forall in H3. auto.
Qed.

Lemma variants_pos train : 0 < variants train.
Proof. destruct train; cbn; lia. Qed.

Lemma run_worker_ok rnd train raw st :
  batch_ok train raw = true ->
  exists aug pos',
    img_preprocessing (q st) (fst raw) (snd raw) train rnd (pos st)
    = (inr (q st ++ [aug]), pos')
    /\ run_worker rnd train raw st
       = mkLoop (q st ++ [aug]) pos' (nshuffle st)
           (trace st ++ [EvAppend (q st ++ [aug])])
    /\ aug_ok aug
    /\ length (fst aug) = variants train * length (fst raw).
Proof.
  intros (Hlen & Hpos & Hall)%batch_ok_inv.
  destruct (img_preprocessing_ok train (q st) (fst raw) (snd raw) rnd (pos st)
              Hlen Hall)
    as (outs & labs & pos' & E & Ho & Hl & Hshape & _).
  exists (outs, labs), pos'. split; [exact E|].
  split; [unfold run_worker; rewrite E; reflexivity|].
  split; [|exact Ho].
  pose proof (variants_pos train).
  repeat split; cbn [fst snd]; [lia|nia|exact Hshape].
Qed.

Lemma iteration_observations b step aug s1 s2 :
  let seg := [EvPop b []; EvStart step] ++ map EvStep s1
             ++ [EvAppend [aug]] ++ map EvStep s2 ++ [EvJoin] in
  started seg = [step] /\ appended seg = [aug] /\ popped seg = [b]
  /\ stepped seg = s1 ++ s2 /\ forallb slot_ok seg = true
  /\ in_flight 0 seg = 0 /\ at_most_one_in_flight 0 seg = true.
Proof.
  intros seg. unfold seg.
  destruct (steps_neutral s1) as (A1 & A2 & A3 & A4 & A5 & A6).
  destruct (steps_neutral s2) as (B1 & B2 & B3 & B4 & B5 & B6).
  rewrite !started_app, !appended_app, !popped_app, !stepped_app,
    !forallb_app, !in_flight_app, !at_most_one_in_flight_app,
    ?in_flight_app.
  rewrite A1, A2, A3, A4, A5, B1, B2, B3, B4, B5.
  cbn [started appended popped stepped flat_map forallb slot_ok last app
       length in_flight Nat.eqb andb].
  rewrite !(proj1 (A6 _)), !(proj2 (A6 _)).
  cbn [in_flight]. rewrite !(proj1 (B6 _)), !(proj2 (B6 _)).
  cbn. rewrite app_nil_r. repeat split; reflexivity.
Qed.

Lemma run_worker_augments rnd train raw st aug pos' :
  q st = [] ->
  img_preprocessing (q st) (fst raw) (snd raw) train rnd (pos st)
  = (inr (q st ++ [aug]), pos') ->
  augments train rnd raw aug.
Proof.
  intros Hq E. rewrite Hq in E. exists (pos st), pos'. exact E.
Qed.

(** The steady state: with one batch [b] in the slot, the loop over the
    remaining raw batches pops what is in the slot, starts one worker,
    steps through the sub-batches while the worker refills the slot, and
    joins; it ends with one batch [b'] in the slot. *)
Lemma epoch_loop_steady rnd shuffle sched train :
  forall ds step st b,
    q st = [b] -> aug_ok b ->
    Forall (fun raw => batch_ok train raw = true) ds ->
    exists st' b' ext,
      epoch_loop rnd shuffle sched train ds step false st = inr st'
      /\ q st' = [b'] /\ aug_ok b'
      /\ trace st' = trace st ++ ext
      /\ nshuffle st' = nshuffle st + length ds
      /\ started ext = seq step (length ds)
      /\ popped ext ++ [b'] = b :: appended ext
      /\ Forall2 (augments train rnd) ds (appended ext)
      /\ stepped ext
         = mjoin (imap (fun k a => sub_batches shuffle (nshuffle st + k) a)
                       (popped ext))
      /\ forallb slot_ok ext = true
      /\ in_flight 0 ext = 0
      /\ at_most_one_in_flight 0 ext = true
      /\ (ds <> [] -> exists pre, ext = pre ++ [EvJoin]).
Proof.
  induction ds as [|raw ds IH]; intros step st b Hq Hb Hall.
  - exists st, b, []. cbn [epoch_loop length seq].
    rewrite app_nil_r, Nat.add_0_r.
    split; [reflexivity|]. split; [exact Hq|]. split; [exact Hb|].
    repeat split; try reflexivity; try constructor.
    intros H; contradiction.
  - apply Forall_cons in Hall as [Hraw Hall].
    cbn [epoch_loop]. rewrite (pop_and_split_ok shuffle st b Hq Hb).
    set (subs := sub_batches shuffle (nshuffle st) b).
    set (k := Nat.min (sched step) (length subs)).
    set (st3 := run_steps (take k subs) (log [EvStart step] _)).
    destruct (run_worker_ok rnd train raw st3 Hraw)
      as (aug & pos' & Eaug & Ew & Haug & _).
    assert (Hq3 : q st3 = []) by reflexivity.
    pose proof (run_worker_augments rnd train raw st3 aug pos' Hq3 Eaug)
      as Hrel.
    rewrite Ew, Hq3. cbn [app].
    set (st6 := log [EvJoin] _).
    assert (Hq6 : q st6 = [aug]) by reflexivity.
    destruct (IH (S step) st6 aug Hq6 Haug Hall)
      as (st' & b' & ext & E & Hq' & Hb' & Htr & Hn & Hst & Hpop & Hrels
          & Hstep & Hslot & Hfl & Hamo & _).
    set (seg := [EvPop b []; EvStart step] ++ map EvStep (take k subs)
                ++ [EvAppend [aug]] ++ map EvStep (drop k subs) ++ [EvJoin]).
    assert (Htr6 : trace st6 = trace st ++ seg).
    { unfold st6, st3, seg, run_steps, log. cbn [trace q pos nshuffle].
      rewrite <- !app_assoc. reflexivity. }
    destruct (iteration_observations b step aug (take k subs) (drop k subs))
      as (S1 & S2 & S3 & S4 & S5 & S6 & S7).
    fold seg in S1, S2, S3, S4, S5, S6, S7.
    rewrite take_drop in S4.
    exists st', b', (seg ++ ext).
    split; [exact E|]. split; [exact Hq'|]. split; [exact Hb'|].
    split; [rewrite Htr, Htr6, app_assoc; reflexivity|].
    split; [rewrite Hn; cbn [nshuffle st6 st3 log run_steps length]; lia|].
    split; [rewrite started_app, S1, Hst; reflexivity|].
    split; [rewrite popped_app, appended_app, S2, S3, <- app_assoc, Hpop;
            reflexivity|].
    split; [rewrite appended_app, S2; constructor; assumption|].
    split.
    { rewrite stepped_app, popped_app, S3, S4, Hstep. cbn [app].
      rewrite imap_cons. change (mjoin (?a :: ?r)) with (a ++ mjoin r).
      rewrite Nat.add_0_r. f_equal. f_equal. apply imap_ext.
      intros i a _. cbn. f_equal.
      change (nshuffle st6) with (S (nshuffle st)). lia. }
    split; [rewrite forallb_app, S5, Hslot; reflexivity|].
    split; [rewrite in_flight_app, S6; exact Hfl|].
    split; [rewrite at_most_one_in_flight_app, S7, S6; exact Hamo|].
    intros _. destruct ds as [|raw' ds'].
    + assert (ext = []) as ->.
      { destruct ext as [|e ext]; [reflexivity|].
        cbn [epoch_loop] in E. injection E as <-.
        rewrite <- (app_nil_r (trace st6)) in Htr at 1.
        apply app_inv_head in Htr. discriminate Htr. }
      rewrite app_nil_r. unfold seg.
      exists ([EvPop b []; EvStart step] ++ map EvStep (take k subs)
              ++ [EvAppend [aug]] ++ map EvStep (drop k subs)).
      rewrite <- !app_assoc. reflexivity.
    + destruct (IH (S step) st6 aug Hq6 Haug Hall)
        as (st2' & b2' & ext2 & E2 & _ & _ & Htr2 & _ & _ & _ & _ & _ & _ & _
            & _ & Hlast).
      rewrite E in E2. injection E2 as <-.
      rewrite Htr in Htr2. apply app_inv_head in Htr2. subst ext2.
      destruct Hlast as [pre Hpre]; [discriminate|].
      exists (seg ++ pre). rewrite Hpre, app_assoc. reflexivity.
Qed.

(** One phase over a non-empty list of raw batches that the worker can
    augment: every observation on its trace. *)
Lemma run_phase_summary rnd shuffle sched train ds pos0 :
  ds <> [] ->
  Forall (fun raw => batch_ok train raw = true) ds ->
  exists st aug0 rest pre blast,
    run_phase rnd shuffle sched train ds pos0 = inr st
    /\ q st = []
    /\ trace st = EvStart 0 :: EvAppend [aug0] :: EvJoin :: rest
    /\ trace st
       = pre ++ [EvJoin]
         ++ EvPop blast []
            :: map EvStep (sub_batches shuffle (length ds - 1) blast)
    /\ started (trace st) = seq 0 (length ds)
    /\ popped (trace st) = appended (trace st)
    /\ Forall2 (augments train rnd) ds (appended (trace st))
    /\ stepped (trace st)
       = mjoin (imap (fun k a => sub_batches shuffle k a)
                     (appended (trace st)))
    /\ forallb slot_ok (trace st) = true
    /\ in_flight 0 (trace st) = 0
    /\ at_most_one_in_flight 0 (trace st) = true.
Proof.
  intros Hne Hall. destruct ds as [|raw0 ds]; [contradiction|].
  apply Forall_cons in Hall as [Hraw0 Hall].
  unfold run_phase. cbn [epoch_loop].
  set (st1 := log [EvStart 0] (mkLoop [] pos0 0 [])).
  destruct (run_worker_ok rnd train raw0 st1 Hraw0)
    as (aug0 & pos' & Eaug & Ew & Haug & _).
  assert (Hq1 : q st1 = []) by reflexivity.
  pose proof (run_worker_augments rnd train raw0 st1 aug0 pos' Hq1 Eaug)
    as Hrel0.
  rewrite Ew, Hq1. cbn [app].
  set (st3 := log [EvJoin] _).
  assert (Hq3 : q st3 = [aug0]) by reflexivity.
  assert (Htr3 : trace st3 = [EvStart 0; EvAppend [aug0]; EvJoin])
    by reflexivity.
  destruct (epoch_loop_steady rnd shuffle sched train ds 1 st3 aug0
              Hq3 Haug Hall)
    as (st' & b' & ext & E & Hq' & Hb' & Htr & Hn & Hst & Hpop & Hrels
        & Hstep & Hslot & Hfl & Hamo & Hlast).
  rewrite E, (pop_and_split_ok shuffle st' b' Hq' Hb').
  set (subs := sub_batches shuffle (nshuffle st') b').
  assert (Hlen : length (popped ext) = length ds).
  { apply Forall2_length in Hrels.
    apply (f_equal length) in Hpop.
    rewrite length_app in Hpop. cbn [length] in Hpop. lia. }
  assert (Hns : nshuffle st' = length ds).
  { rewrite Hn. reflexivity. }
  destruct (steps_neutral subs) as (A1 & A2 & A3 & A4 & A5 & A6).
  set (fin := [EvPop b' []] ++ map EvStep subs).
  assert (Htrace : trace (run_steps subs
                     (mkLoop [] (pos st') (S (nshuffle st'))
                        (trace st' ++ [EvPop b' []])))
                   = [EvStart 0; EvAppend [aug0]; EvJoin] ++ ext ++ fin).
  { unfold run_steps, log, fin. cbn [trace]. rewrite Htr, Htr3.
    rewrite <- !app_assoc. reflexivity. }
  assert (Hpre : exists pre,
             [EvStart 0; EvAppend [aug0]; EvJoin] ++ ext = pre ++ [EvJoin]).
  { destruct ds as [|raw1 ds1].
    - assert (ext = []) as ->.
      { destruct ext as [|e ext]; [reflexivity|].
        cbn [epoch_loop] in E. injection E as <-.
        rewrite <- (app_nil_r (trace st3)) in Htr at 1.
        apply app_inv_head in Htr. discriminate Htr. }
      exists [EvStart 0; EvAppend [aug0]]. reflexivity.
    - destruct Hlast as [pre Hpre]; [discriminate|]. rewrite Hpre.
      exists ([EvStart 0; EvAppend [aug0]; EvJoin] ++ pre).
      rewrite <- !app_assoc. reflexivity. }
  destruct Hpre as [pre Hpre].
  eexists _, aug0, (ext ++ fin), pre, b'.
  split; [reflexivity|]. split; [reflexivity|].
  rewrite Htrace. split; [reflexivity|].
  split.
  { replace (length (raw0 :: ds) - 1) with (nshuffle st')
      by (cbn [length]; lia).
    fold subs. rewrite app_assoc, Hpre, <- !app_assoc. reflexivity. }
  unfold fin.
  rewrite !started_app, !appended_app, !popped_app, !stepped_app,
    !forallb_app, !in_flight_app, !at_most_one_in_flight_app,
    ?in_flight_app.
  rewrite A1, A2, A3, A4, A5, Hst, Hslot.
  cbn [started appended popped stepped flat_map forallb slot_ok last app
       length in_flight at_most_one_in_flight Nat.eqb Nat.leb andb pred].
  rewrite Hfl, Hamo, !app_nil_r. cbn [in_flight at_most_one_in_flight].
  rewrite (proj1 (A6 0)), (proj2 (A6 0)).
  split; [reflexivity|].
  split; [exact Hpop|].
  split; [constructor; assumption|].
  split.
  { rewrite <- Hpop, imap_app, join_app, Hstep. f_equal.
    cbn [imap mjoin list_join]. rewrite app_nil_r, Hlen, Nat.add_0_r.
    unfold subs. rewrite Hns. reflexivity. }
  repeat split; reflexivity.
Qed.

Lemma augments_sizes train rnd raw aug :
  batch_ok train raw = true -> augments train rnd raw aug ->
  length (fst aug) = variants train * length (fst raw)
  /\ length (snd aug) = variants train * length (fst raw).
Proof.
  intros (Hlen & _ & Hall)%batch_ok_inv (p & p' & E).
  destruct (img_preprocessing_ok train [] (fst raw) (snd raw) rnd p Hlen Hall)
    as (outs & labs & p2 & E2 & Ho & Hl & _).
  rewrite E in E2. injection E2 as -> _. auto.
Qed.

(** C4.  One epoch phase over [K >= 1] raw batches the worker can augment,
    under any schedule of the worker thread: the worker is started [K]
    times, once per raw batch in order; the first run is the priming, ended
    before anything else happens; the phase ends with a pop that follows
    the last join, and steps only; the batches appended are the
    augmentations of the raw batches, and the batches popped are the
    batches appended, in that order; never more than one task is in flight;
    each append finds the slot empty and each pop leaves it empty. *)
Theorem double_buffer_pipeline :
  forall rnd shuffle sched train ds pos0,
    ds <> [] ->
    Forall (fun raw => batch_ok train raw = true) ds ->
    exists st,
      run_phase rnd shuffle sched train ds pos0 = inr st
      /\ worker_runs (trace st) = length ds
      /\ started (trace st) = seq 0 (length ds)
      /\ (exists aug0 rest,
             trace st = EvStart 0 :: EvAppend [aug0] :: EvJoin :: rest)
      /\ (exists pre blast subs,
             trace st = pre ++ [EvJoin] ++ EvPop blast [] :: map EvStep subs)
      /\ Forall2 (augments train rnd) ds (appended (trace st))
      /\ popped (trace st) = appended (trace st)
      /\ at_most_one_in_flight 0 (trace st) = true
      /\ forallb slot_ok (trace st) = true
      /\ q st = [].
Proof.
  intros rnd shuffle sched train ds pos0 Hne Hall.
  destruct (run_phase_summary rnd shuffle sched train ds pos0 Hne Hall)
    as (st & aug0 & rest & pre & blast & E & Hq & Hprime & Hdrain & Hst
        & Hpop & Hrel & _ & Hslot & _ & Hamo).
  exists st. split; [exact E|].
  split; [unfold worker_runs; rewrite Hst; apply length_seq|].
  split; [exact Hst|].
  split; [exists aug0, rest; exact Hprime|].
  split; [eexists pre, blast, _; exact Hdrain|].
  auto.
Qed.

Lemma double_buffer_pipeline_witness :
  exists st,
    run_phase (fun n => n) (fun _ l => rev l) (fun _ => 1) true
      [sample_batch 70; sample_batch 3] 0 = inr st
    /\ worker_runs (trace st) = 2
    /\ popped (trace st) = appended (trace st)
    /\ at_most_one_in_flight 0 (trace st) = true
    /\ forallb slot_ok (trace st) = true.
Proof.
  destruct (double_buffer_pipeline (fun n => n) (fun _ l => rev l)
              (fun _ => 1) true [sample_batch 70; sample_batch 3] 0)
    as (st & E & Hruns & _ & _ & _ & _ & Hpop & Hamo & Hslot & _).
  - discriminate.
  - repeat constructor.
  - exists st. auto.
Defined.

(** C10.  Each augmented batch is cut into sub-batches of 128 with the
    remainder dropped: of its [size] samples (twice, or ten times, the
    number of images of its raw batch) the steps see [size / 128]
    sub-batches of 128 samples, the first [size / 128 * 128] of the
    shuffled batch.  The raw batches keep their remainder (the batches
    cut from the records without dropping join up to all the records), so
    a raw batch of fewer than 64 training images comes out with fewer than
    128 samples and gets no step at all. *)
Theorem resplit_drops_remainder :
  forall rnd shuffle sched train ds pos0 (records : list sample),
    (forall n l, shuffle n l ≡ₚ l) ->
    ds <> [] ->
    Forall (fun raw => batch_ok train raw = true) ds ->
    mjoin (batch BATCH_SIZE false records) = records
    /\ exists st,
        run_phase rnd shuffle sched train ds pos0 = inr st
        /\ length (appended (trace st)) = length ds
        /\ stepped (trace st)
           = mjoin (imap (sub_batches shuffle) (appended (trace st)))
        /\ forall k raw aug,
            ds !! k = Some raw -> appended (trace st) !! k = Some aug ->
            let size := length (snd aug) in
            let subs := sub_batches shuffle k aug in
            size = variants train * length (fst raw)
            /\ length subs = size / 128
            /\ Forall (fun s => length s = 128) subs
            /\ mjoin subs
               = take (size / 128 * 128)
                   (shuffle k (zip (fst aug) (snd aug)))
            /\ length (mjoin subs) = size / 128 * 128
            /\ (train = true -> length (fst raw) < 64 -> subs = []).
Proof.
  intros rnd shuffle sched train ds pos0 records Hperm Hne Hall.
  split.
  { apply batch_fuel_keep; [unfold BATCH_SIZE; lia|reflexivity]. }
  destruct (run_phase_summary rnd shuffle sched train ds pos0 Hne Hall)
    as (st & aug0 & rest & pre & blast & E & _ & _ & _ & _
        & _ & Hrel & Hstep & _).
  exists st. split; [exact E|].
  split; [symmetry; eapply Forall2_length; exact Hrel|].
  split; [exact Hstep|].
  intros k raw aug Hraw Haug size subs.
  assert (Hok : batch_ok train raw = true).
  { rewrite Forall_forall in Hall. apply Hall.
    eapply list_elem_of_lookup_2; exact Hraw. }
  pose proof (Forall2_lookup_lr _ _ _ _ _ _ Hrel Hraw Haug) as Hra.
  destruct (augments_sizes train rnd raw aug Hok Hra) as [Hs1 Hs2].
  assert (Hlen : length (shuffle k (zip (fst aug) (snd aug))) = size).
  { rewrite (Permutation_length (Hperm k (zip (fst aug) (snd aug)))).
    rewrite length_zip_with. unfold size. lia. }
  destruct (batch_drop_remainder (shuffle k (zip (fst aug) (snd aug))))
    as (B1 & B2 & B3).
  rewrite Hlen in B1, B3. subst subs. unfold sub_batches.
  change BATCH_SIZE with 128 in *.
  split; [exact Hs2|]. split; [exact B1|]. split; [exact B2|].
  split; [exact B3|].
  split.
  { rewrite B3, length_take, Hlen.
    pose proof (Nat.Div0.mul_div_le size 128). lia. }
  intros -> Hsmall. apply nil_length_inv. rewrite B1.
  apply Nat.div_small. unfold size. rewrite Hs2. cbn [variants]. lia.
Qed.

Lemma resplit_drops_remainder_witness :
  exists st,
    run_phase (fun n => n) (fun _ l => rev l) (fun _ => 1) true
      [sample_batch 128; sample_batch 2] 0 = inr st
    /\ length (appended (trace st)) = 2
    /\ forall aug,
        appended (trace st) !! 1 = Some aug ->
        sub_batches (fun _ l => rev l) 1 aug = [].
Proof.
  destruct (resplit_drops_remainder (fun n => n) (fun _ l => rev l)
              (fun _ => 1) true [sample_batch 128; sample_batch 2] 0 [])
    as (_ & st & E & Hlen & _ & Hk).
  - intros n l. symmetry. apply Permutation_rev.
  - discriminate.
  - repeat constructor.
  - exists st. split; [exact E|]. split; [exact Hlen|].
    intros aug Haug.
    apply (Hk 1 (sample_batch 2) aug eq_refl Haug); [reflexivity|].
    cbn. lia.
Defined.

End PipelineFacts.

(* ===================================================================== *)
(** * Properties of the stagnation check                                  *)
(* ===================================================================== *)

Section TrainFacts.

Import Train.
Local Open Scope Q_scope.

(** The state after [n] epochs: the accuracy kept is the one of the last
    epoch ([-1] before the first), and the events are those of the epochs
    in order. *)
Lemma main_loop_state acc n :
  (forall e, 0 <= acc e) ->
  prev_test_accuracy (main_loop acc n)
  = match n with O => -1 | S m => acc m end
  /\ events (main_loop acc n) = flat_map (epoch_events acc) (seq 0 n).
Proof.
  intros Hacc. induction n as [|n [IHp IHe]]; [split; reflexivity|].
  unfold main_loop in *. rewrite seq_S, fold_left_app. cbn [fold_left].
  destruct (fold_left (epoch_body acc) (seq 0 n) (mkMain (-1) []))
    as [prev evs].
  cbn [prev_test_accuracy events] in IHp, IHe.
  unfold epoch_body. cbn [prev_test_accuracy events Nat.add].
  split; [reflexivity|].
  rewrite flat_map_app. cbn [flat_map]. rewrite app_nil_r, <- IHe.
  change (epoch_events acc n)
    with ([TrainPhase n; EvalPhase n]
          ++ (if stagnates acc n then [Stagnation n] else [])).
  rewrite IHp. destruct n as [|m]; cbn [stagnates].
  - destruct (Qle_bool (acc 0%nat) (-1)) eqn:E.
    + apply Qle_bool_iff in E. specialize (Hacc 0%nat). lra.
    + rewrite app_nil_r. reflexivity.
  - destruct (Qle_bool (acc (S m)) (acc m));
      rewrite <- ?app_assoc, ?app_nil_r; reflexivity.
Qed.

Lemma stagnation_calls_app e a b :
  stagnation_calls e (a ++ b) = (stagnation_calls e a + stagnation_calls e b)%nat.
Proof.
  unfold stagnation_calls. rewrite List.filter_app. apply length_app.
Qed.

Lemma stagnation_calls_epoch acc e e' :
  stagnation_calls e (epoch_events acc e')
  = if (e' =? e)%nat && stagnates acc e' then 1%nat else 0%nat.
Proof.
  unfold stagnation_calls, epoch_events.
  destruct (stagnates acc e'); cbn; [|rewrite andb_false_r; reflexivity].
  rewrite andb_true_r. destruct (e' =? e)%nat; reflexivity.
Qed.

Lemma stagnation_calls_epochs acc e n :
  stagnation_calls e (flat_map (epoch_events acc) (seq 0 n))
  = if (e <? n)%nat && stagnates acc e then 1%nat else 0%nat.
Proof.
  induction n as [|n IH]; [reflexivity|].
  rewrite seq_S, flat_map_app, stagnation_calls_app, IH.
  cbn [flat_map Nat.add]. rewrite app_nil_r, stagnation_calls_epoch.
  destruct (Nat.ltb_spec e n), (Nat.ltb_spec e (S n)), (Nat.eqb_spec n e);
    try lia; subst; cbn [andb]; destruct (stagnates acc _); reflexivity.
Qed.

(** C9.  The stagnation signal.  With accuracies in [0, 1] (at least 0 is
    all that is used) and [prev_test_accuracy] starting at [-1], the events
    of a run of [n] epochs are, epoch by epoch, the training phase, the
    evaluation phase and then, in a stagnating epoch only, one call of
    [performance_lr_scheduling()].  So the call is made at most once per
    epoch, after the evaluation phase, never in the first epoch, and in a
    later epoch exactly when the previous accuracy is greater than or equal
    to the current one. *)
Theorem stagnation_signal :
  forall acc n,
    (forall e, 0 <= acc e) ->
    events (main_loop acc n) = flat_map (epoch_events acc) (seq 0 n)
    /\ (forall e, (stagnation_calls e (events (main_loop acc n)) <= 1)%nat)
    /\ stagnation_calls 0 (events (main_loop acc n)) = 0%nat
    /\ forall e, (S e < n)%nat ->
         (stagnation_calls (S e) (events (main_loop acc n)) = 1%nat
          <-> acc (S e) <= acc e).
Proof.
  intros acc n Hacc.
  destruct (main_loop_state acc n Hacc) as [_ He].
  split; [exact He|]. rewrite He.
  split; [|split].
  - intros e. rewrite stagnation_calls_epochs.
    destruct (_ && _); lia.
  - rewrite stagnation_calls_epochs. cbn [stagnates].
    rewrite andb_false_r. reflexivity.
  - intros e He'. rewrite stagnation_calls_epochs.
    destruct (Nat.ltb_spec (S e) n); [|lia]. cbn [andb stagnates].
    rewrite <- Qle_bool_iff.
    destruct (Qle_bool (acc (S e)) (acc e)); split; intros Hx;
      try reflexivity; discriminate Hx.
Qed.

Lemma stagnation_signal_witness :
  stagnation_calls 0
    (events (main_loop (fun e => if Nat.even e then 1 # 2 else 1 # 4) 4))
  = 0%nat
  /\ (stagnation_calls 1
        (events (main_loop (fun e => if Nat.even e then 1 # 2 else 1 # 4) 4))
      = 1%nat
      <-> (1 # 4) <= (1 # 2)).
Proof.
  destruct (stagnation_signal
              (fun e => if Nat.even e then 1 # 2 else 1 # 4) 4)
    as (_ & _ & H0 & HS).
  - intros e. destruct (Nat.even e); unfold Qle; simpl; lia.
  - split; [exact H0|]. apply (HS 0%nat). lia.
Defined.

End TrainFacts.

(* ===================================================================== *)
(** * More on the optimizer                                               *)
(* ===================================================================== *)

Section OptimizerMore.

Import Optimizer.
Local Open Scope Q_scope.

(** ** The constructor *)

(** [__init__] fails only for a numeric [momentum] outside [0, 1], and
    then always with the message that names [weight_decay]; the message
    that names [momentum] is never raised, and a tensor or a callable is
    accepted whatever its value. *)
Theorem init_failure_cause :
  forall lr wd mom nest e,
    __init__ lr wd mom nest = inl e ->
    e = ValueError "`weight_decay` must be between [0, 1]."
    /\ exists x, mom = PyNum x /\ (x < 0 \/ 1 < x).
Proof.
  intros lr wd mom nest e. unfold __init__.
  destruct (out_of_unit_interval mom) eqn:E; [|discriminate].
  intros [= <-]. split; [reflexivity|].
  destruct mom as [x|x|x]; try discriminate E.
  exists x. split; [reflexivity|].
  unfold out_of_unit_interval in E.
  destruct (Qlt_le_dec x 0); [left; assumption|].
  destruct (Qlt_le_dec 1 x); [right; assumption|discriminate E].
Qed.

Lemma init_failure_cause_witness :
  ValueError "`weight_decay` must be between [0, 1]."
  = ValueError "`weight_decay` must be between [0, 1]."
  /\ exists x, PyNum 1.5 = PyNum x /\ (x < 0 \/ 1 < x).
Proof.
  apply (init_failure_cause (PyNum 0.01) (PyNum 0.0005) (PyNum 1.5) false).
  reflexivity.
Defined.

(** ** Slot creation *)

Lemma add_slot_lookup var name st k :
  slots (add_slot var name st) !! k
  = match slots st !! k with
    | Some x => Some x
    | None => if decide (k = (var, name)) then Some 0 else None
    end.
Proof.
  destruct (decide (k = (var, name))) as [->|Hne].
  - rewrite add_slot_lookup_eq. destruct (slots st !! (var, name)); reflexivity.
  - rewrite add_slot_lookup_ne by exact Hne.
    destruct (slots st !! k); reflexivity.
Qed.

Lemma fold_add_slot_vars name vl :
  forall st, vars (fold_left (fun s v => add_slot v name s) vl st) = vars st.
Proof.
  induction vl as [|v vl IH]; intros st; [reflexivity|].
  cbn [fold_left]. rewrite IH. apply add_slot_vars.
Qed.

Lemma fold_add_slot_lookup name vl :
  forall st k,
    slots (fold_left (fun s v => add_slot v name s) vl st) !! k
    = match slots st !! k with
      | Some x => Some x
      | None => if decide (snd k = name /\ fst k ∈ vl) then Some 0 else None
      end.
Proof.
  induction vl as [|v vl IH]; intros st k; cbn [fold_left].
  - destruct (slots st !! k); [reflexivity|].
    destruct (decide _) as [[_ H]|_]; [inversion H|reflexivity].
  - rewrite IH, add_slot_lookup.
    destruct (slots st !! k) as [x|]; [reflexivity|].
    destruct (decide (k = (v, name))) as [->|Hne].
    + cbn [fst snd]. destruct (decide _) as [_|H]; [reflexivity|].
      exfalso. apply H. split; [reflexivity|apply list_elem_of_here].
    + destruct (decide (snd k = name /\ fst k ∈ vl)) as [[H1 H2]|H];
        destruct (decide (snd k = name /\ fst k ∈ v :: vl)) as [[H3 H4]|H'];
        try reflexivity.
      * exfalso. apply H'. split; [exact H1|by apply list_elem_of_further].
      * exfalso. apply elem_of_cons in H4 as [H4|H4].
        -- apply Hne. destruct k as [k1 k2]. cbn [fst snd] in *. congruence.
        -- apply H. auto.
Qed.

Lemma create_slots_vars opt vl st : vars (_create_slots opt vl st) = vars st.
Proof.
  unfold _create_slots.
  destruct (_momentum opt), (_weight_decay opt);
    rewrite ?fold_add_slot_vars; reflexivity.
Qed.

(** The slots after [_create_slots]: what was there stays, and the
    missing momentum and weight-decay slots of the listed variables come
    in with 0, each kind only if the optimizer uses it. *)
Lemma create_slots_lookup opt vl st w name :
  slots (_create_slots opt vl st) !! (w, name)
  = match slots st !! (w, name) with
    | Some x => Some x
    | None =>
        if decide (w ∈ vl
                   /\ ((name = "momentum"%string /\ _momentum opt = true)
                       \/ (name = "weight_decay"%string
                           /\ _weight_decay opt = true)))
        then Some 0 else None
    end.
Proof.
  unfold _create_slots.
  destruct (_momentum opt), (_weight_decay opt);
    rewrite ?fold_add_slot_lookup; cbn [fst snd];
    destruct (slots st !! (w, name)) as [x|]; try reflexivity;
    repeat match goal with
           | |- context [decide ?P] => destruct (decide P)
           end; try reflexivity; exfalso;
    repeat match goal with
           | H : _ /\ _ |- _ => destruct H
           | H : _ \/ _ |- _ => destruct H
           end; subst; try discriminate; try tauto;
    match goal with
    | H : ~ _ |- _ => apply H; auto
    end.
Qed.

Lemma fold_add_slot_id name vl :
  forall st,
    (forall v, v ∈ vl -> is_Some (slots st !! (v, name))) ->
    fold_left (fun s v => add_slot v name s) vl st = st.
Proof.
  induction vl as [|v vl IH]; intros st Hall; [reflexivity|].
  cbn [fold_left].
  assert (E : add_slot v name st = st).
  { unfold add_slot. destruct (Hall v (list_elem_of_here _ _)) as [x ->].
    reflexivity. }
  rewrite E. apply IH. intros u Hu. apply Hall. by apply list_elem_of_further.
Qed.

(** [_create_slots] on any list of variables leaves the variables and the
    existing slots (so a velocity survives the next call), gives each
    listed variable the slots the optimizer uses, new ones holding 0, and
    changes nothing when it is run again. *)
Theorem create_slots_keeps_and_completes :
  forall opt var_list st,
    let st' := _create_slots opt var_list st in
    vars st' = vars st
    /\ (forall k x, slots st !! k = Some x -> slots st' !! k = Some x)
    /\ (forall k x, slots st' !! k = Some x ->
          slots st !! k = Some x \/ (slots st !! k = None /\ x = 0))
    /\ (forall w, w ∈ var_list ->
          (_momentum opt = true ->
           is_Some (slots st' !! (w, "momentum"%string)))
          /\ (_weight_decay opt = true ->
              is_Some (slots st' !! (w, "weight_decay"%string))))
    /\ _create_slots opt var_list st' = st'.
Proof.
  intros opt vl st st'. subst st'.
  split; [apply create_slots_vars|].
  split.
  { intros [w name] x H. rewrite create_slots_lookup, H. reflexivity. }
  split.
  { intros [w name] x. rewrite create_slots_lookup.
    destruct (slots st !! (w, name)) as [y|]; [auto|].
    destruct (decide _); [|discriminate]. intros [= <-]. auto. }
  assert (Hsome : forall w, w ∈ vl ->
            (_momentum opt = true ->
             is_Some (slots (_create_slots opt vl st)
                        !! (w, "momentum"%string)))
            /\ (_weight_decay opt = true ->
                is_Some (slots (_create_slots opt vl st)
                           !! (w, "weight_decay"%string)))).
  { intros w Hw. split; intros Hflag; rewrite create_slots_lookup;
      (destruct (slots st !! _); [eauto|]);
      (destruct (decide _) as [_|Hn]; [eauto|]); exfalso; apply Hn; auto. }
  split; [exact Hsome|].
  remember (_create_slots opt vl st) as st' eqn:Est. clear Est.
  unfold _create_slots.
  destruct (_momentum opt) eqn:Hm, (_weight_decay opt) eqn:Hw;
    try reflexivity.
  - rewrite (fold_add_slot_id "momentum" vl st')
      by (intros v Hv; apply (Hsome v Hv); reflexivity).
    apply fold_add_slot_id. intros v Hv. apply (Hsome v Hv). reflexivity.
  - apply fold_add_slot_id. intros v Hv. apply (Hsome v Hv). reflexivity.
  - apply fold_add_slot_id. intros v Hv. apply (Hsome v Hv). reflexivity.
Qed.

Lemma create_slots_keeps_and_completes_witness :
  slots (_create_slots
           (mkSGD (PyNum 0.1) (PyNum 0.5) (PyNum 0.9) true true false)
           ["w"%string]
           (mkStore {[ "w"%string := 1 ]}
                    {[ ("w"%string, "momentum"%string) := 3 ]}))
    !! ("w"%string, "momentum"%string) = Some 3.
Proof.
  apply (create_slots_keeps_and_completes
           (mkSGD (PyNum 0.1) (PyNum 0.5) (PyNum 0.9) true true false)
           ["w"%string]
           (mkStore {[ "w"%string := 1 ]}
                    {[ ("w"%string, "momentum"%string) := 3 ]})).
  apply lookup_singleton_eq.
Defined.

(** ** What a step leaves alone *)

Lemma apply_dense_frame opt g v st st' :
  _resource_apply_dense opt g v st = Some st' ->
  (forall u, u <> v -> vars st' !! u = vars st !! u)
  /\ (forall k, k <> (v, "momentum"%string) -> slots st' !! k = slots st !! k).
Proof.
  unfold _resource_apply_dense.
  destruct (vars st !! v) as [w|]; [|discriminate]. cbn.
  destruct (_momentum opt).
  - destruct (slots st !! (v, "momentum"%string)) as [mv|]; [|discriminate].
    cbn. destruct (nesterov opt); intros [= <-]; cbn [vars slots];
      split; intros; by rewrite lookup_insert_ne.
  - intros [= <-]. cbn [vars slots].
    split; intros; [by rewrite lookup_insert_ne|reflexivity].
Qed.

Lemma apply_each_frame opt gvs :
  forall st st',
    apply_each opt gvs st = Some st' ->
    (forall u, u ∉ map snd gvs -> vars st' !! u = vars st !! u)
    /\ (forall u name,
          u ∉ map snd gvs \/ name <> "momentum"%string ->
          slots st' !! (u, name) = slots st !! (u, name)).
Proof.
  induction gvs as [|[g v] gvs IH]; intros st st' E.
  - injection E as <-. auto.
  - cbn [apply_each] in E.
    destruct (_resource_apply_dense opt g v st) as [st1|] eqn:E1;
      [|discriminate E]. cbn in E.
    destruct (apply_dense_frame _ _ _ _ _ E1) as [F1 F2].
    destruct (IH _ _ E) as [G1 G2]. cbn [map snd]. split.
    + intros u Hu. apply not_elem_of_cons in Hu as [Hu1 Hu2].
      rewrite G1, F1; auto.
    + intros u name Hu. rewrite G2, F2.
      * reflexivity.
      * intros [= -> ->]. destruct Hu as [Hu|Hu]; [|congruence].
        apply Hu. apply list_elem_of_here.
      * destruct Hu as [Hu|Hu]; [left|right; exact Hu].
        apply not_elem_of_cons in Hu. tauto.
Qed.

(** A call of [apply_gradients] touches the listed variables only: any
    other variable keeps its value, and gets no slot and no change to a
    slot it has. *)
Theorem apply_gradients_frame :
  forall opt gvs st st' u,
    apply_gradients opt gvs st = Some st' ->
    u ∉ map snd gvs ->
    vars st' !! u = vars st !! u
    /\ forall name, slots st' !! (u, name) = slots st !! (u, name).
Proof.
  intros opt gvs st st' u E Hu. unfold apply_gradients in E.
  destruct (apply_each_frame _ _ _ _ E) as [F1 F2]. split.
  - rewrite F1 by exact Hu. rewrite create_slots_vars. reflexivity.
  - intros name. rewrite F2 by (left; exact Hu).
    rewrite create_slots_lookup.
    destruct (slots st !! (u, name)); [reflexivity|].
    destruct (decide _) as [[H _]|_]; [contradiction|reflexivity].
Qed.

Lemma apply_gradients_frame_witness :
  exists st',
    apply_gradients (mkSGD (PyNum 0.1) (PyNum 0) (PyNum 0.9) false true false)
      [(2, "w"%string)]
      (mkStore {[ "w"%string := 1; "b"%string := 5 ]} ∅) = Some st'
    /\ vars st' !! "b"%string = Some 5.
Proof.
  destruct (apply_gradients_single
              (mkSGD (PyNum 0.1) (PyNum 0) (PyNum 0.9) false true false)
              (mkStore {[ "w"%string := 1; "b"%string := 5 ]} ∅)
              "w"%string 1 2 eq_refl eq_refl (lookup_insert_eq _ _ _))
    as (st' & E & _).
  exists st'. split; [exact E|].
  destruct (apply_gradients_frame _ _ _ st' "b"%string E) as [H _].
  - cbn [map snd]. intros H%list_elem_of_singleton. discriminate H.
  - rewrite H. reflexivity.
Defined.

(** The weight-decay slots are write-once: [apply_gradients] creates them
    with 0 (for the listed variables, when weight decay is on) and never
    changes one that exists, whatever the gradients. *)
Theorem weight_decay_slot_never_written :
  forall opt gvs st st' w,
    apply_gradients opt gvs st = Some st' ->
    slots st' !! (w, "weight_decay"%string)
    = match slots st !! (w, "weight_decay"%string) with
      | Some x => Some x
      | None =>
          if decide (w ∈ map snd gvs /\ _weight_decay opt = true)
          then Some 0 else None
      end.
Proof.
  intros opt gvs st st' w E. unfold apply_gradients in E.
  destruct (apply_each_frame _ _ _ _ E) as [_ F2].
  rewrite F2 by (right; discriminate). rewrite create_slots_lookup.
  destruct (slots st !! (w, "weight_decay"%string)); [reflexivity|].
  repeat match goal with
         | |- context [decide ?P] => destruct (decide P)
         end; try reflexivity; exfalso;
    repeat match goal with
           | H : _ /\ _ |- _ => destruct H
           | H : _ \/ _ |- _ => destruct H
           end; try discriminate;
    match goal with
    | H : ~ _ |- _ => apply H; auto
    end.
Qed.

Lemma weight_decay_slot_never_written_witness :
  exists st',
    apply_gradients
      (mkSGD (PyNum 0.1) (PyNum 0.5) (PyNum 0.9) true true false)
      [(2, "w"%string)] (mkStore {[ "w"%string := 1 ]} ∅) = Some st'
    /\ slots st' !! ("w"%string, "weight_decay"%string) = Some 0.
Proof.
  destruct (apply_gradients_single
              (mkSGD (PyNum 0.1) (PyNum 0.5) (PyNum 0.9) true true false)
              (mkStore {[ "w"%string := 1 ]} ∅)
              "w"%string 1 2 eq_refl eq_refl (lookup_singleton_eq _ _))
    as (st' & E & _).
  exists st'. split; [exact E|].
  rewrite (weight_decay_slot_never_written _ _ _ st' "w"%string E).
  reflexivity.
Defined.

(** ** Many steps *)

Lemma apply_gradients_plain_single opt st w w0 g :
  _momentum opt = false -> vars st !! w = Some w0 ->
  exists st',
    apply_gradients opt [(g, w)] st = Some st'
    /\ vars st' !! w = Some (w0 - _get_hyper (learning_rate opt) * g)
    /\ slots st' !! (w, "momentum"%string)
       = slots st !! (w, "momentum"%string).
Proof.
  intros Hm Hw. unfold apply_gradients. cbn [map snd apply_each].
  destruct (apply_dense_plain opt (_create_slots opt [w] st) w w0 g Hm)
    as (st' & E & Hv & Hs).
  { rewrite create_slots_vars. exact Hw. }
  rewrite E. exists st'. split; [reflexivity|]. split; [exact Hv|].
  rewrite Hs, create_slots_lookup, Hm.
  destruct (slots st !! (w, "momentum"%string)); [reflexivity|].
  destruct (decide _) as [[_ [[_ H]|[H _]]]|_]; try discriminate H.
  reflexivity.
Qed.

Lemma train_steps_plain opt w gs :
  _momentum opt = false ->
  forall st w0,
    vars st !! w = Some w0 ->
    exists st' w',
      train_steps opt w gs st = Some st'
      /\ vars st' !! w = Some w'
      /\ w' == w0 - _get_hyper (learning_rate opt) * fold_right Qplus 0 gs
      /\ slots st' !! (w, "momentum"%string)
         = slots st !! (w, "momentum"%string).
Proof.
  intros Hm. induction gs as [|g gs IH]; intros st w0 Hw.
  - exists st, w0. cbn [train_steps fold_right].
    repeat split; try assumption. ring.
  - destruct (apply_gradients_plain_single opt st w w0 g Hm Hw)
      as (st1 & E1 & Hw1 & Hs1).
    destruct (IH st1 _ Hw1) as (st' & w' & E & Hw' & Heq & Hs).
    exists st', w'. cbn [train_steps fold_right]. rewrite E1. cbn.
    split; [exact E|]. split; [exact Hw'|].
    split; [rewrite Heq; ring|congruence].
Qed.

(** An optimizer built with [momentum = 0] does plain gradient descent:
    after any sequence of gradients the variable stands at
    [w0 - learning_rate * (g1 + ... + gn)], whatever the order of the
    gradients, and no velocity is created or changed. *)
Theorem plain_descent_accumulates :
  forall lr wd nest opt w gs st w0,
    __init__ (PyNum lr) wd (PyNum 0) nest = inr opt ->
    vars st !! w = Some w0 ->
    exists st' w',
      train_steps opt w gs st = Some st'
      /\ vars st' !! w = Some w'
      /\ w' == w0 - lr * fold_right Qplus 0 gs
      /\ slots st' !! (w, "momentum"%string)
         = slots st !! (w, "momentum"%string).
Proof.
  intros lr wd nest opt w gs st w0 Hinit Hw.
  assert (E : __init__ (PyNum lr) wd (PyNum 0) nest
              = inr (mkSGD (PyNum lr) wd (PyNum 0) (enabled wd) false nest))
    by reflexivity.
  rewrite E in Hinit. injection Hinit as <-.
  exact (train_steps_plain
           (mkSGD (PyNum lr) wd (PyNum 0) (enabled wd) false nest)
           w gs eq_refl st w0 Hw).
Qed.

Lemma plain_descent_accumulates_witness :
  exists st' w',
    train_steps (mkSGD (PyNum 0.1) (PyNum 0) (PyNum 0) false false false)
      "w"%string [2; -1; 3] (mkStore {[ "w"%string := 1 ]} ∅) = Some st'
    /\ vars st' !! "w"%string = Some w'
    /\ w' == 1 - 0.1 * fold_right Qplus 0 [2; -1; 3]
    /\ slots st' !! ("w"%string, "momentum"%string)
       = (∅ : gmap (string * string) Q) !! ("w"%string, "momentum"%string).
Proof.
  apply (plain_descent_accumulates 0.1 (PyNum 0) false _ "w"%string
           [2; -1; 3] (mkStore {[ "w"%string := 1 ]} ∅) 1).
  - reflexivity.
  - reflexivity.
Defined.

Lemma Qpower_nat_succ (m : Q) (n : nat) :
  m ^ Z.of_nat (S n) == m * m ^ Z.of_nat n.
Proof.
  rewrite Nat2Z.inj_succ. unfold Z.succ. rewrite Z.add_comm.
  rewrite Qpower_plus' by lia. rewrite Qpower_1_r. reflexivity.
Qed.

Lemma train_steps_momentum opt w g :
  _momentum opt = true -> nesterov opt = false ->
  forall n st w0,
    vars st !! w = Some w0 ->
    let m := _get_hyper (momentum opt) in
    let c := _get_hyper (learning_rate opt) * g in
    let v0 := default 0 (slots st !! (w, "momentum"%string)) in
    exists st' w',
      train_steps opt w (repeat g n) st = Some st'
      /\ vars st' !! w = Some w'
      /\ let v' := default 0 (slots st' !! (w, "momentum"%string)) in
         (1 - m) * v'
         == (1 - m) * m ^ Z.of_nat n * v0 - c * (1 - m ^ Z.of_nat n)
         /\ (1 - m) * (1 - m) * (w' - w0)
            == (1 - m) * m * (1 - m ^ Z.of_nat n) * v0
               - c * ((1 - m) * inject_Z (Z.of_nat n)
                      - m * (1 - m ^ Z.of_nat n)).
Proof.
  intros Hm Hn n. induction n as [|n IH]; intros st w0 Hw m c v0.
  - exists st, w0. cbn [repeat train_steps]. split; [reflexivity|].
    split; [exact Hw|]. fold v0. cbv zeta.
    change (Z.of_nat 0) with 0%Z. change (m ^ 0) with 1.
    change (inject_Z 0) with 0. split; ring.
  - destruct (apply_gradients_single opt st w w0 g Hm Hn Hw)
      as (st1 & E1 & Hv1 & Hw1).
    destruct (IH st1 _ Hw1) as (st' & w' & E & Hw' & Hv & Hx).
    cbv zeta in Hv, Hx. rewrite Hv1 in Hv, Hx. cbn [default] in Hv, Hx.
    fold m c v0 in Hv, Hx. fold v0 in Hw1.
    exists st', w'. cbn [repeat train_steps]. rewrite E1. cbn.
    split; [exact E|]. split; [exact Hw'|]. cbv zeta.
    set (P := m ^ Z.of_nat n) in *.
    rewrite !Qpower_nat_succ. fold P.
    assert (HS : inject_Z (Z.of_nat (S n)) == inject_Z (Z.of_nat n) + 1).
    { rewrite Nat2Z.inj_succ. unfold Z.succ. rewrite inject_Z_plus.
      reflexivity. }
    rewrite HS. split.
    + rewrite Hv. unfold id. ring.
    + assert (Hd : (1 - m) * (1 - m) * (w' - w0)
                   == (1 - m) * (1 - m)
                      * (w' - (w0 + (v0 * m
                                     - _get_hyper (learning_rate opt) * g)))
                      + (1 - m) * (1 - m)
                        * (v0 * m - _get_hyper (learning_rate opt) * g))
        by ring.
      rewrite Hd. fold c. rewrite Hx. unfold id. ring.
Qed.

(** Momentum under a constant gradient: starting from a new velocity
    slot, after [n] steps with gradient [g] the velocity is
    [- lr * g * (1 - m^n) / (1 - m)] and the variable has moved by the sum
    of the velocities so far (both stated without the division, so that
    [m = 1] is covered). *)
Theorem momentum_constant_gradient :
  forall opt w g n st w0,
    _momentum opt = true -> nesterov opt = false ->
    vars st !! w = Some w0 ->
    slots st !! (w, "momentum"%string) = None ->
    let m := _get_hyper (momentum opt) in
    let c := _get_hyper (learning_rate opt) * g in
    exists st' w',
      train_steps opt w (repeat g n) st = Some st'
      /\ vars st' !! w = Some w'
      /\ (1 - m) * default 0 (slots st' !! (w, "momentum"%string))
         == - c * (1 - m ^ Z.of_nat n)
      /\ (1 - m) * (1 - m) * (w' - w0)
         == - c * ((1 - m) * inject_Z (Z.of_nat n)
                   - m * (1 - m ^ Z.of_nat n)).
Proof.
  intros opt w g n st w0 Hm Hn Hw Hs m c.
  destruct (train_steps_momentum opt w g Hm Hn n st w0 Hw)
    as (st' & w' & E & Hw' & Hv & Hx).
  rewrite Hs in Hv, Hx. cbn [default] in Hv, Hx. fold m c in Hv, Hx.
  exists st', w'. split; [exact E|]. split; [exact Hw'|].
  split; [rewrite Hv; ring|rewrite Hx; ring].
Qed.

Lemma momentum_constant_gradient_witness :
  exists st' w',
    train_steps (mkSGD (PyNum 0.1) (PyNum 0) (PyNum 0.9) false true false)
      "w"%string (repeat 2 3) (mkStore {[ "w"%string := 1 ]} ∅) = Some st'
    /\ vars st' !! "w"%string = Some w'
    /\ (1 - 0.9) * default 0 (slots st' !! ("w"%string, "momentum"%string))
       == - (0.1 * 2) * (1 - 0.9 ^ Z.of_nat 3)
    /\ (1 - 0.9) * (1 - 0.9) * (w' - 1)
       == - (0.1 * 2) * ((1 - 0.9) * inject_Z (Z.of_nat 3)
                         - 0.9 * (1 - 0.9 ^ Z.of_nat 3)).
Proof.
  apply (momentum_constant_gradient
           (mkSGD (PyNum 0.1) (PyNum 0) (PyNum 0.9) false true false)
           "w"%string 2 3 (mkStore {[ "w"%string := 1 ]} ∅) 1).
  - reflexivity.
  - reflexivity.
  - apply lookup_singleton_eq.
  - apply lookup_empty.
Defined.

(** ** Sparse gradients *)

Lemma scatter_add_rows_spec :
  forall indices updates var,
    length indices = length updates ->
    Forall (fun i => (i < length var)%nat) indices ->
    exists var',
      scatter_add_rows var (zip indices updates) = Some var'
      /\ length var' = length var
      /\ forall i x, var !! i = Some x ->
           exists x', var' !! i = Some x'
                      /\ x' == x + dense_row i indices updates.
Proof.
  induction indices as [|j indices IH]; intros updates var Hlen Hall.
  - exists var. cbn. repeat split. intros i x Hx. exists x.
    split; [exact Hx|ring].
  - destruct updates as [|u updates]; [discriminate Hlen|].
    apply Forall_cons in Hall as [Hj Hall].
    destruct (lookup_lt_is_Some_2 var j Hj) as [xj Hxj].
    cbn [zip zip_with scatter_add_rows]. rewrite Hxj. cbn.
    destruct (IH updates (<[j := xj + u]> var)) as (var' & E & Hl & Hrows).
    { cbn [length] in Hlen. lia. }
    { rewrite length_insert. exact Hall. }
    exists var'. split; [exact E|].
    split; [rewrite Hl; apply length_insert|].
    intros i x Hx. cbn [dense_row].
    destruct (Nat.eqb_spec j i) as [->|Hne].
    + destruct (Hrows i (xj + u)) as (x' & Hx' & Heq).
      { apply list_lookup_insert_eq. exact Hj. }
      exists x'. split; [exact Hx'|].
      rewrite Hxj in Hx. injection Hx as <-. rewrite Heq. ring.
    + destruct (Hrows i x) as (x' & Hx' & Heq).
      { rewrite list_lookup_insert_ne by exact Hne. exact Hx. }
      exists x'. split; [exact Hx'|]. rewrite Heq. ring.
Qed.

Lemma dense_row_scale i lr :
  forall indices grad,
    dense_row i indices (map (fun g => - g * lr) grad)
    == - lr * dense_row i indices grad.
Proof.
  induction indices as [|j indices IH]; intros grad; [cbn; ring|].
  destruct grad as [|g grad]; [cbn; ring|].
  cbn [map dense_row]. rewrite IH. destruct (j =? i)%nat; ring.
Qed.

(** A sparse gradient applied without momentum is gradient descent with
    the gradient its rows add up to: every row [i] of the variable ends at
    [x - lr * (sum of the gradients given for row i)], so a row that is
    named twice gets both gradients and a row that is not named stays as
    it is; the momentum slot is untouched. *)
Theorem sparse_plain_descent :
  forall opt grad var accum indices,
    _momentum opt = false ->
    length indices = length grad ->
    Forall (fun i => (i < length var)%nat) indices ->
    exists var',
      _resource_apply_sparse_duplicate_indices opt grad var accum indices
      = Some (var', accum)
      /\ length var' = length var
      /\ forall i x, var !! i = Some x ->
           exists x', var' !! i = Some x'
                      /\ x' == x - _get_hyper (learning_rate opt)
                                   * dense_row i indices grad.
Proof.
  intros opt grad var accum indices Hm Hlen Hall.
  unfold _resource_apply_sparse_duplicate_indices, resource_scatter_add.
  rewrite Hm, length_map, Hlen, Nat.eqb_refl.
  destruct (scatter_add_rows_spec indices
              (map (fun g => - g * lr_t (_prepare_local opt)) grad) var)
    as (var' & E & Hl & Hrows); [by rewrite length_map|exact Hall|].
  rewrite E. exists var'. split; [reflexivity|]. split; [exact Hl|].
  intros i x Hx. destruct (Hrows i x Hx) as (x' & Hx' & Heq).
  exists x'. split; [exact Hx'|]. rewrite Heq, dense_row_scale.
  cbn [_prepare_local lr_t]. ring.
Qed.

Lemma sparse_plain_descent_witness :
  exists var',
    _resource_apply_sparse_duplicate_indices
      (mkSGD (PyNum 0.1) (PyNum 0) (PyNum 0) false false false)
      [1; 2; 3] [10; 20; 30] [] [0%nat; 2%nat; 0%nat]
    = Some (var', [])
    /\ length var' = length [10; 20; 30]
    /\ forall i x, [10; 20; 30] !! i = Some x ->
         exists x', var' !! i = Some x'
                    /\ x' == x - 0.1 * dense_row i [0%nat; 2%nat; 0%nat]
                                         [1; 2; 3].
Proof.
  apply (sparse_plain_descent
           (mkSGD (PyNum 0.1) (PyNum 0) (PyNum 0) false false false)
           [1; 2; 3] [10; 20; 30] [] [0%nat; 2%nat; 0%nat]).
  - reflexivity.
  - reflexivity.
  - repeat constructor.
Defined.

Lemma unique_from_elem indices :
  forall seen i,
    i ∈ unique_from seen indices <-> i ∈ indices /\ i ∉ seen.
Proof.
  induction indices as [|j indices IH]; intros seen i; cbn [unique_from].
  - split; [intros H; inversion H|intros [H _]; inversion H].
  - destruct (bool_decide_reflect (j ∈ seen)) as [Hin|Hnin].
    + rewrite IH, elem_of_cons. split; [tauto|].
      intros [[->|H] Hs]; [contradiction|auto].
    + split.
      * intros [->|[H1 H2]%IH]%elem_of_cons.
        -- split; [apply list_elem_of_here|exact Hnin].
        -- apply not_elem_of_cons in H2 as [H2 H3].
           split; [by apply list_elem_of_further|exact H3].
      * intros [[->|H1]%elem_of_cons H2]; [apply list_elem_of_here|].
        destruct (decide (i = j)) as [->|Hne]; [apply list_elem_of_here|].
        apply list_elem_of_further, IH. split; [exact H1|].
        apply not_elem_of_cons. auto.
Qed.

Lemma unique_from_NoDup indices :
  forall seen, NoDup (unique_from seen indices).
Proof.
  induction indices as [|j indices IH]; intros seen; cbn [unique_from].
  - constructor.
  - destruct (bool_decide_reflect (j ∈ seen)); [apply IH|].
    constructor; [|apply IH].
    rewrite unique_from_elem, not_elem_of_cons. tauto.
Qed.

Lemma sparse_rows_spec lr mom nest :
  forall (ig : list (nat * Q)) var accum,
    NoDup (map fst ig) ->
    length accum = length var ->
    Forall (fun p => (fst p < length var)%nat) ig ->
    exists var' accum',
      sparse_keras_momentum_rows var accum ig lr mom nest
      = Some (var', accum')
      /\ length var' = length var /\ length accum' = length accum
      /\ forall i v a,
           var !! i = Some v -> accum !! i = Some a ->
           (forall g, (i, g) ∈ ig ->
              accum' !! i = Some (a * mom - lr * g)
              /\ var' !! i
                 = Some (if nest
                         then v + ((a * mom - lr * g) * mom - lr * g)
                         else v + (a * mom - lr * g)))
           /\ (i ∉ map fst ig -> var' !! i = Some v /\ accum' !! i = Some a).
Proof.
  induction ig as [|[j g] ig IH]; intros var accum Hnd Hlen Hall.
  - exists var, accum. cbn [sparse_keras_momentum_rows].
    split; [reflexivity|]. split; [reflexivity|]. split; [reflexivity|].
    intros i v a Hv Ha. split; [|auto].
    intros g0 Hg. inversion Hg.
  - cbn [map fst] in Hnd. apply NoDup_cons in Hnd as [Hj Hnd].
    apply Forall_cons in Hall as [Hjr Hall]. cbn [fst] in Hjr.
    destruct (lookup_lt_is_Some_2 var j Hjr) as [vj Hvj].
    destruct (lookup_lt_is_Some_2 accum j ltac:(lia)) as [aj Haj].
    cbn [sparse_keras_momentum_rows]. rewrite Hvj, Haj. cbn.
    set (a' := aj * mom - lr * g).
    set (v' := if nest then vj + (a' * mom - lr * g) else vj + a').
    destruct (IH (<[j := v']> var) (<[j := a']> accum) Hnd)
      as (var' & accum' & E & Hl1 & Hl2 & Hrows).
    { rewrite !length_insert. exact Hlen. }
    { rewrite length_insert. exact Hall. }
    exists var', accum'. split; [exact E|].
    split; [rewrite Hl1; apply length_insert|].
    split; [rewrite Hl2; apply length_insert|].
    intros i v a Hv Ha.
    destruct (decide (i = j)) as [->|Hne].
    + rewrite Hvj in Hv. injection Hv as <-.
      rewrite Haj in Ha. injection Ha as <-.
      destruct (Hrows j v' a') as [_ Hkeep].
      { apply list_lookup_insert_eq. exact Hjr. }
      { apply list_lookup_insert_eq. lia. }
      destruct (Hkeep Hj) as [Hv' Ha']. split.
      * intros g' Hg'. apply elem_of_cons in Hg' as [[= <-]|Hg'].
        -- split; [exact Ha'|exact Hv'].
        -- exfalso. apply Hj. apply list_elem_of_fmap. exists (j, g'). auto.
      * intros Hn. exfalso. apply Hn. cbn [map fst]. apply list_elem_of_here.
    + destruct (Hrows i v a) as [Hin Hout].
      { rewrite list_lookup_insert_ne by auto. exact Hv. }
      { rewrite list_lookup_insert_ne by auto. exact Ha. }
      split.
      * intros g' Hg'. apply elem_of_cons in Hg' as [[= -> _]|Hg'];
          [contradiction|]. apply Hin, Hg'.
      * intros Hn. apply Hout. cbn [map fst] in Hn.
        apply not_elem_of_cons in Hn. tauto.
Qed.

Lemma zip_map_elem (f : nat -> Q) (l : list nat) i g :
  (i, g) ∈ zip l (map f l) <-> i ∈ l /\ g = f i.
Proof.
  induction l as [|j l IH]; cbn [zip zip_with map].
  - split; [intros H; inversion H|intros [H _]; inversion H].
  - rewrite !elem_of_cons, IH. split.
    + intros [[= -> ->]|[H1 H2]]; auto.
    + intros [[->|H1] H2]; [left; congruence|auto].
Qed.

Lemma zip_map_fst (f : nat -> Q) (l : list nat) :
  map fst (zip l (map f l)) = l.
Proof. induction l as [|j l IH]; cbn; [reflexivity|]. by rewrite IH. Qed.

(** A sparse gradient applied with momentum, one gradient per index and
    every index inside the variable, moves the named rows only: a named
    row gets one momentum step with the sum of the gradients given for it,
    however often it is named, and a row that is not named keeps its value
    and its velocity (the velocity is not decayed, unlike in a dense step
    with a zero gradient). *)
Theorem sparse_momentum_rows :
  forall opt grad var accum indices,
    _momentum opt = true ->
    length indices = length grad ->
    length accum = length var ->
    Forall (fun i => (i < length var)%nat) indices ->
    let m := _get_hyper (momentum opt) in
    let lr := _get_hyper (learning_rate opt) in
    exists var' accum',
      _resource_apply_sparse_duplicate_indices opt grad var accum indices
      = Some (var', accum')
      /\ forall i v a,
           var !! i = Some v -> accum !! i = Some a ->
           (i ∈ indices ->
              let g := dense_row i indices grad in
              accum' !! i = Some (a * m - lr * g)
              /\ var' !! i
                 = Some (if nesterov opt
                         then v + ((a * m - lr * g) * m - lr * g)
                         else v + (a * m - lr * g)))
           /\ (i ∉ indices -> var' !! i = Some v /\ accum' !! i = Some a).
Proof.
  intros opt grad var accum indices Hm Hig Hlen Hall m lr.
  unfold _resource_apply_sparse_duplicate_indices. rewrite Hm.
  unfold _deduplicate_indexed_slices. rewrite Hig, Nat.eqb_refl.
  unfold _resource_apply_sparse, resource_sparse_apply_keras_momentum.
  rewrite length_map, Nat.eqb_refl. cbn [_prepare_local lr_t coef_momentum].
  fold m lr.
  set (u := unique_from [] indices).
  set (f := fun i => dense_row i indices grad).
  destruct (sparse_rows_spec lr m (nesterov opt) (zip u (map f u)) var accum)
    as (var' & accum' & E & _ & _ & Hrows).
  { rewrite zip_map_fst. apply unique_from_NoDup. }
  { exact Hlen. }
  { apply Forall_forall. intros [i g] Hin%zip_map_elem. cbn [fst].
    destruct Hin as [Hin _]. apply unique_from_elem in Hin as [Hin _].
    rewrite Forall_forall in Hall. auto. }
  exists var', accum'. split; [exact E|].
  intros i v a Hv Ha. destruct (Hrows i v a Hv Ha) as [Hin Hout]. split.
  - intros Hi. cbv zeta. apply Hin. apply zip_map_elem.
    split; [|reflexivity].
    apply unique_from_elem. split; [exact Hi|]. intros H; inversion H.
  - intros Hi. apply Hout. rewrite zip_map_fst.
    intros H. apply Hi. apply unique_from_elem in H. tauto.
Qed.

Lemma sparse_momentum_rows_witness :
  exists var' accum',
    _resource_apply_sparse_duplicate_indices
      (mkSGD (PyNum 0.1) (PyNum 0) (PyNum 0.9) false true false)
      [1; 2; 3] [10; 20; 30] [1; 1; 1] [0%nat; 2%nat; 0%nat]
    = Some (var', accum')
    /\ var' !! 1%nat = Some 20 /\ accum' !! 1%nat = Some 1.
Proof.
  destruct (sparse_momentum_rows
              (mkSGD (PyNum 0.1) (PyNum 0) (PyNum 0.9) false true false)
              [1; 2; 3] [10; 20; 30] [1; 1; 1] [0%nat; 2%nat; 0%nat])
    as (var' & accum' & E & Hrows).
  - reflexivity.
  - reflexivity.
  - reflexivity.
  - repeat constructor.
  - exists var', accum'. split; [exact E|].
    apply (Hrows 1%nat 20 1 eq_refl eq_refl).
    intros H. apply list_elem_of_In in H. cbn in H.
    destruct H as [H|[H|[H|[]]]]; discriminate H.
Defined.

End OptimizerMore.

(* ===================================================================== *)
(** * More on the augmentation worker                                     *)
(* ===================================================================== *)

Section AugmentMore.

Import Augment.

(** ** Which images [image_cropping] accepts *)

Lemma image_cropping_eval_rejects img rnd pos :
  0 < height img -> 0 < width img ->
  height img <> 256 \/ width img <> 256 ->
  exists pos', image_cropping img false rnd pos
               = (inl InvalidArgument_stack, pos').
Proof.
  intros Hh Hw Hne.
  destruct (image_cropping img false rnd pos) as [[e|crops] pos'] eqn:E.
  { rewrite (image_cropping_error _ _ _ _ _ _ E). eauto. }
  exfalso.
  unfold image_cropping, tf_stack in E. cbv beta zeta in E. cbn [app] in E.
  match type of E with
  | context [forallb ?f ?l] => destruct (forallb f l) eqn:F
  end; [|discriminate E].
  cbn [forallb] in F.
  apply andb_true_iff in F as [F1 F].
  apply andb_true_iff in F as [F2 _].
  unfold same_shape in F1, F2.
  cbn [tf_subtract tf_cast slice2 height width] in F1, F2.
  apply andb_true_iff in F1 as [F1 _].
  apply andb_true_iff in F2 as [_ F2].
  apply Nat.eqb_eq in F1, F2. unfold slice_len in F1, F2. lia.
Qed.

(** [image_cropping] returns crops exactly for the images of at least
    227 x 227 in training mode, and exactly for the images of 256 x 256 in
    evaluation mode: there a larger image is refused like a smaller one,
    by the shape check of [tf.stack]. *)
Theorem image_cropping_succeeds_iff :
  forall img rnd pos,
    0 < height img -> 0 < width img ->
    ((exists crops pos', image_cropping img true rnd pos = (inr crops, pos'))
     <-> 227 <= height img /\ 227 <= width img)
    /\ ((exists crops pos',
            image_cropping img false rnd pos = (inr crops, pos'))
        <-> height img = 256 /\ width img = 256).
Proof.
  intros img rnd pos Hh Hw. split; split.
  - intros (crops & pos' & E).
    destruct (Nat.le_gt_cases 227 (height img)) as [H1|H1],
             (Nat.le_gt_cases 227 (width img)) as [H2|H2]; auto;
      destruct (image_cropping_too_small true img rnd pos Hh Hw) as [p E'];
      auto; rewrite E in E'; discriminate E'.
  - intros H. apply image_ok_train in H.
    destruct (image_cropping_ok true img rnd pos H) as (c & p & E & _).
    eauto.
  - intros (crops & pos' & E).
    destruct (Nat.eq_dec (height img) 256) as [H1|H1],
             (Nat.eq_dec (width img) 256) as [H2|H2]; auto;
      destruct (image_cropping_eval_rejects img rnd pos Hh Hw) as [p E'];
      auto; rewrite E in E'; discriminate E'.
  - intros H. apply image_ok_eval in H.
    destruct (image_cropping_ok false img rnd pos H) as (c & p & E & _).
    eauto.
Qed.

Lemma image_cropping_succeeds_iff_witness :
  ((exists crops pos',
       image_cropping (mkImage 300 300 (fun _ _ => (0, 0, 0)%Q)) true
         (fun n => n) 0 = (inr crops, pos'))
   <-> 227 <= 300 /\ 227 <= 300)
  /\ ((exists crops pos',
          image_cropping (mkImage 300 300 (fun _ _ => (0, 0, 0)%Q)) false
            (fun n => n) 0 = (inr crops, pos'))
      <-> 300 = 256 /\ 300 = 256).
Proof.
  apply (image_cropping_succeeds_iff
           (mkImage 300 300 (fun _ _ => (0, 0, 0)%Q)) (fun n => n) 0).
  - cbn [height]. lia.
  - cbn [width]. lia.
Defined.

(** ** The random stream *)

Lemma image_cropping_pos train img rnd pos crops pos' :
  image_cropping img train rnd pos = (inr crops, pos') ->
  pos' = pos + (if train then 6 else 0).
Proof.
  destruct train.
  - destruct (image_ok true img) eqn:Hok.
    + destruct (image_cropping_train_ok img rnd pos Hok) as (o1 & o2 & E & _).
      rewrite E. intros [= _ <-]. reflexivity.
    + unfold image_cropping, random_crop.
      change ((227 <=? height img) && (227 <=? width img))
        with (image_ok true img).
      rewrite Hok. discriminate.
  - unfold image_cropping. cbv beta zeta. intros [= _ <-].
    symmetry. apply Nat.add_0_r.
Qed.

Lemma preprocessing_loop_pos train images labels rnd idx :
  forall acc pos out pos',
    preprocessing_loop images labels train rnd idx acc pos = (inr out, pos') ->
    pos' = pos + (if train then 6 else 0) * length idx.
Proof.
  induction idx as [|i idx IH]; intros acc pos out pos' E.
  - cbn in E. injection E as _ <-. cbn [length]. lia.
  - cbn [preprocessing_loop] in E.
    destruct (images !! i) as [img|]; [|discriminate E].
    destruct (labels !! i) as [lab|]; [|discriminate E].
    destruct (image_cropping img train rnd pos) as [[e|crops] p1] eqn:Ec;
      [discriminate E|].
    apply image_cropping_pos in Ec. apply IH in E. cbn [length]. lia.
Qed.

Lemma preprocessing_loop_eval_rnd images labels rnd rnd' idx :
  forall acc pos pos2,
    fst (preprocessing_loop images labels false rnd idx acc pos)
    = fst (preprocessing_loop images labels false rnd' idx acc pos2).
Proof.
  induction idx as [|i idx IH]; intros acc pos pos2; [reflexivity|].
  cbn [preprocessing_loop].
  destruct (images !! i) as [img|]; [|reflexivity].
  destruct (labels !! i) as [lab|]; [|reflexivity].
  unfold image_cropping. cbv beta zeta.
  match goal with
  | |- context [tf_stack ?l] => destruct (tf_stack l) as [e|crops]
  end; [reflexivity|]. apply IH.
Qed.

(** A successful run of the worker on [N] labels reads six numbers of the
    random stream per image in training mode (three per [random_crop]),
    and none in evaluation mode, where its result does not depend on the
    stream at all. *)
Theorem worker_random_draws :
  forall train q0 images labels rnd pos out pos',
    img_preprocessing q0 images labels train rnd pos = (inr out, pos') ->
    pos' = pos + (if train then 6 else 0) * length labels
    /\ forall rnd' pos2,
        fst (img_preprocessing q0 images labels false rnd pos)
        = fst (img_preprocessing q0 images labels false rnd' pos2).
Proof.
  intros train q0 images labels rnd pos out pos' E. split.
  - unfold img_preprocessing in E.
    destruct (preprocessing_loop images labels train rnd
                (seq 0 (length labels)) ([], []) pos)
      as [[e|b] p1] eqn:El; [discriminate E|].
    injection E as _ <-.
    apply preprocessing_loop_pos in El. rewrite length_seq in El. exact El.
  - intros rnd' pos2. unfold img_preprocessing.
    pose proof (preprocessing_loop_eval_rnd images labels rnd rnd'
                  (seq 0 (length labels)) ([], []) pos pos2) as H.
    destruct (preprocessing_loop images labels false rnd _ _ pos)
      as [[e1|b1] p1],
             (preprocessing_loop images labels false rnd' _ _ pos2)
      as [[e2|b2] p2]; cbn [fst] in *; congruence.
Qed.

Lemma worker_random_draws_witness :
  exists out pos',
    img_preprocessing [] [sample_image; sample_image] [7%Z; 3%Z] true
      (fun n => n) 10 = (inr out, pos')
    /\ pos' = 10 + 6 * 2.
Proof.
  destruct (img_preprocessing_ok true [] [sample_image; sample_image]
              [7%Z; 3%Z] (fun n => n) 10 eq_refl)
    as (outs & labs & pos' & E & _).
  { repeat constructor. }
  exists ([] ++ [(outs, labs)]), pos'. split; [exact E|].
  apply (worker_random_draws true [] [sample_image; sample_image]
           [7%Z; 3%Z] (fun n => n) 10 _ pos' E).
Defined.

(** ** The mirrored variants of evaluation mode *)

(** Of the ten evaluation variants of a 256 x 256 image, the mirrored
    corner crops are the left-right flips of the corner crops of the image
    itself, with left and right exchanged: variants 5, 6, 7, 8 are the
    flips of variants 2, 3, 0, 1.  The mirrored centre crop (variant 9) is
    the flip of the crop at row 15, column 14 of the image, one column
    beside the centre crop (variant 4). *)
Theorem mirrored_variants :
  forall img rnd pos crops pos',
    height img = 256 -> width img = 256 ->
    image_cropping img false rnd pos = (inr crops, pos') ->
    (forall km ko om oo,
        In (km, ko) [(5, 2); (6, 3); (7, 0); (8, 1)] ->
        crops !! km = Some om -> crops !! ko = Some oo ->
        forall i j, i < 227 -> j < 227 -> px om i j = px oo i (226 - j))
    /\ (forall om,
           crops !! 9 = Some om ->
           forall i j, i < 227 -> j < 227 ->
             px om i j
             = psub (px img (15 + i) (14 + (226 - j))) IMAGENET_MEAN).
Proof.
  intros img rnd pos crops pos' Hh Hw E.
  destruct (image_cropping_eval_ok img rnd pos) as (crops0 & E0 & _ & Hv).
  { apply image_ok_eval. auto. }
  rewrite E in E0. injection E0 as -> _.
  assert (Hpx : forall k out m r c,
             crops0 !! k = Some out ->
             eval_crop_table !! k = Some (m, r, c) ->
             forall i j, i < 227 -> j < 227 ->
               px out i j
               = psub (px (source_of m img) (r + i) (c + j)) IMAGENET_MEAN).
  { intros k out m r c Hk Ht i j Hi Hj.
    pose proof (Hv k out Hk) as Hs. unfold variant_spec in Hs.
    rewrite Ht in Hs. destruct Hs as (_ & _ & Hs). apply Hs; assumption. }
  split.
  - intros km ko om oo Hin Hm Ho i j Hi Hj.
    assert (Hj' : 226 - j < 227) by lia.
    cbn [In] in Hin.
    destruct Hin as [[= <- <-]|[[= <- <-]|[[= <- <-]|[[= <- <-]|[]]]]];
      rewrite (Hpx _ _ _ _ _ Hm eq_refl i j Hi Hj),
        (Hpx _ _ _ _ _ Ho eq_refl i (226 - j) Hi Hj');
      cbn [source_of flip_left_right px]; rewrite Hw;
      do 2 f_equal; lia.
  - intros om Hm i j Hi Hj.
    rewrite (Hpx _ _ _ _ _ Hm eq_refl i j Hi Hj).
    cbn [source_of flip_left_right px]. rewrite Hw.
    do 2 f_equal. lia.
Qed.

Lemma mirrored_variants_witness :
  exists crops,
    image_cropping sample_image false (fun n => n) 0 = (inr crops, 0)
    /\ forall om,
        crops !! 9 = Some om ->
        forall i j, i < 227 -> j < 227 ->
          px om i j
          = psub (px sample_image (15 + i) (14 + (226 - j))) IMAGENET_MEAN.
Proof.
  destruct (image_cropping_eval_ok sample_image (fun n => n) 0 eq_refl)
    as (crops & E & _).
  exists crops. split; [exact E|].
  apply (mirrored_variants sample_image (fun n => n) 0 crops 0
           eq_refl eq_refl E).
Defined.

(** ** Images and labels of different numbers *)

Lemma preprocessing_loop_app train images labels rnd idx1 idx2 :
  forall acc pos,
    preprocessing_loop images labels train rnd (idx1 ++ idx2) acc pos
    = match preprocessing_loop images labels train rnd idx1 acc pos with
      | (inl e, pos') => (inl e, pos')
      | (inr acc', pos') =>
          preprocessing_loop images labels train rnd idx2 acc' pos'
      end.
Proof.
  induction idx1 as [|i idx1 IH]; intros acc pos; [reflexivity|].
  cbn [app preprocessing_loop].
  destruct (images !! i) as [img|]; [|reflexivity].
  destruct (labels !! i) as [lab|]; [|reflexivity].
  destruct (image_cropping img train rnd pos) as [[e|crops] p1];
    [reflexivity|]. apply IH.
Qed.

Lemma preprocessing_loop_ext train images1 images2 labels rnd idx :
  (forall i, i ∈ idx -> images1 !! i = images2 !! i) ->
  forall acc pos,
    preprocessing_loop images1 labels train rnd idx acc pos
    = preprocessing_loop images2 labels train rnd idx acc pos.
Proof.
  induction idx as [|i idx IH]; intros Hext acc pos; [reflexivity|].
  cbn [preprocessing_loop]. rewrite <- (Hext i) by apply list_elem_of_here.
  destruct (images1 !! i) as [img|]; [|reflexivity].
  destruct (labels !! i) as [lab|]; [|reflexivity].
  destruct (image_cropping img train rnd pos) as [[e|crops] p1];
    [reflexivity|].
  apply IH. intros j Hj. apply Hext. by apply list_elem_of_further.
Qed.

(** The worker walks [range(len(labels))]: images beyond the last label
    are never looked at, and a label without an image ends the run in the
    [InvalidArgumentError] of the out-of-bounds index into the image
    tensor, once the images before it have all been cropped; nothing is
    appended then. *)
Theorem worker_length_mismatch :
  forall train q0 images extra labels rnd pos,
    length images <= length labels ->
    (length images = length labels ->
     img_preprocessing q0 (images ++ extra) labels train rnd pos
     = img_preprocessing q0 images labels train rnd pos)
    /\ (length images < length labels ->
        Forall (fun img => image_ok train img = true) images ->
        exists pos',
          img_preprocessing q0 images labels train rnd pos
          = (inl InvalidArgument_slice, pos')).
Proof.
  intros train q0 images extra labels rnd pos Hle. split.
  - intros Hlen. unfold img_preprocessing.
    rewrite (preprocessing_loop_ext train (images ++ extra) images); auto.
    intros i Hi%elem_of_seq. apply lookup_app_l. lia.
  - intros Hlt Hall. unfold img_preprocessing.
    replace (length labels)
      with (length images + (length labels - length images)) by lia.
    rewrite seq_app, preprocessing_loop_app.
    destruct (preprocessing_loop_ok train images labels rnd
                (seq 0 (length images)) ([], []) pos)
      as (blocks & p1 & E & _).
    { apply Forall_forall. intros i Hi%elem_of_seq.
      destruct (lookup_lt_is_Some_2 images i) as [img Hi1]; [lia|].
      destruct (lookup_lt_is_Some_2 labels i) as [lab Hi2]; [lia|].
      exists img, lab. repeat split; try assumption.
      rewrite Forall_forall in Hall. apply Hall.
      eapply list_elem_of_lookup_2; eassumption. }
    rewrite E.
    destruct (length labels - length images) as [|m] eqn:Em; [lia|].
    cbn [seq preprocessing_loop Nat.add].
    rewrite (lookup_ge_None_2 images (length images)) by lia.
    eexists. reflexivity.
Qed.

Lemma worker_length_mismatch_witness :
  exists pos',
    img_preprocessing [] [sample_image] [7%Z; 3%Z] true (fun n => n) 0
    = (inl InvalidArgument_slice, pos').
Proof.
  apply (worker_length_mismatch true [] [sample_image] [] [7%Z; 3%Z]
           (fun n => n) 0).
  - cbn [length]. lia.
  - cbn [length]. lia.
  - repeat constructor.
Defined.

End AugmentMore.

(* ===================================================================== *)
(** * More on the data pipeline                                           *)
(* ===================================================================== *)

Section PipelineMore.

Import Augment Pipeline.

(** ** The raw batches *)

Lemma batch_fuel_keep_lengths {A : Type} (n : nat) :
  0 < n ->
  forall fuel (l : list A),
    length l <= fuel ->
    map length (batch_fuel fuel n false l)
    = repeat n (length l / n)
      ++ (if length l mod n =? 0 then [] else [length l mod n]).
Proof.
  intros Hn. induction fuel as [|fuel IH]; intros l Hl.
  - destruct l; [|cbn in Hl; lia]. cbn [batch_fuel map length].
    rewrite Nat.Div0.div_0_l, Nat.Div0.mod_0_l. reflexivity.
  - destruct l as [|x l].
    { cbn [batch_fuel map length].
      rewrite Nat.Div0.div_0_l, Nat.Div0.mod_0_l. reflexivity. }
    cbn [batch_fuel]. set (l0 := x :: l) in *.
    destruct (Nat.leb_spec n (length l0)) as [Hle|Hlt].
    + cbn [map]. rewrite IH by (rewrite length_drop; unfold l0 in *;
                                cbn [length] in *; lia).
      rewrite length_drop, length_take_le by exact Hle.
      assert (Hdiv : length l0 / n = S ((length l0 - n) / n)).
      { replace (length l0) with ((length l0 - n) + 1 * n) at 1 by lia.
        rewrite Nat.div_add by lia. lia. }
      assert (Hmod : (length l0 - n) mod n = length l0 mod n).
      { replace (length l0) with ((length l0 - n) + 1 * n) at 2 by lia.
        rewrite Nat.Div0.mod_add. reflexivity. }
      rewrite Hdiv, Hmod. reflexivity.
    + rewrite Nat.div_small, Nat.mod_small by exact Hlt.
      destruct (Nat.eqb_spec (length l0) 0) as [H0|_].
      * unfold l0 in H0. discriminate H0.
      * reflexivity.
Qed.

Lemma raw_batches_lengths records :
  map (fun b : raw_batch => length (fst b)) (raw_batches records)
  = map length (batch BATCH_SIZE false records)
  /\ Forall (fun b : raw_batch => length (fst b) = length (snd b))
       (raw_batches records).
Proof.
  unfold raw_batches. split.
  - rewrite map_map. apply map_ext. intros b. cbn [fst]. apply length_map.
  - apply Forall_forall. intros b (x & -> & _)%list_elem_of_fmap.
    cbn [fst snd]. rewrite !length_map. reflexivity.
Qed.

Lemma raw_batches_facts :
  forall records : list sample,
    let n := length records in
    map (fun b : raw_batch => length (fst b)) (raw_batches records)
    = repeat 128 (n / 128) ++ (if n mod 128 =? 0 then [] else [n mod 128])
    /\ length (raw_batches records) = (n + 127) / 128
    /\ Forall (fun b : raw_batch =>
                 length (fst b) = length (snd b)
                 /\ 0 < length (fst b) <= 128) (raw_batches records)
    /\ mjoin (map (fun b : raw_batch => zip (fst b) (snd b))
                (raw_batches records))
       = records.
Proof.
  intros records n.
  destruct (raw_batches_lengths records) as [Hl Heq].
  assert (Hshape :
    map (fun b : raw_batch => length (fst b)) (raw_batches records)
    = repeat 128 (n / 128) ++ (if n mod 128 =? 0 then [] else [n mod 128])).
  { rewrite Hl. unfold batch.
    apply (batch_fuel_keep_lengths 128); [lia|reflexivity]. }
  split; [exact Hshape|]. split; [|split].
  - pose proof (f_equal length Hshape) as Hlen.
    rewrite length_map, length_app, repeat_length in Hlen. rewrite Hlen.
    pose proof (Nat.div_mod_eq n 128) as Hdm.
    pose proof (Nat.mod_upper_bound n 128) as Hub.
    destruct (Nat.eqb_spec (n mod 128) 0) as [H0|H0]; cbn [length].
    + replace (n + 127) with (127 + (n / 128) * 128) by lia.
      rewrite Nat.div_add by lia. cbn. lia.
    + replace (n + 127) with ((n mod 128 + 127) + (n / 128) * 128) by lia.
      rewrite Nat.div_add by lia.
      replace ((n mod 128 + 127) / 128) with 1; [lia|].
      apply Nat.div_unique with (r := n mod 128 - 1); lia.
  - apply Forall_forall. intros b Hb.
    rewrite Forall_forall in Heq. split; [apply Heq, Hb|].
    assert (Hin : length (fst b)
                  ∈ map (fun b : raw_batch => length (fst b))
                      (raw_batches records)).
    { apply list_elem_of_fmap. exists b. auto. }
    rewrite Hshape in Hin. apply elem_of_app in Hin as [Hin|Hin].
    + apply list_elem_of_In, repeat_spec in Hin. lia.
    + pose proof (Nat.mod_upper_bound n 128) as Hub.
      destruct (Nat.eqb_spec (n mod 128) 0) as [H0|H0].
      * inversion Hin.
      * apply list_elem_of_singleton in Hin. lia.
  - unfold raw_batches. rewrite map_map.
    rewrite (map_ext _ (fun b : list sample => b)).
    + rewrite map_id. apply batch_fuel_keep; [unfold BATCH_SIZE; lia|].
      reflexivity.
    + intros b. cbn [fst snd]. induction b as [|[i l] b IH]; [reflexivity|].
      cbn. f_equal. exact IH.
Qed.

(** The raw batches of [n] records: [n / 128] batches of 128 images, then
    one batch with the [n mod 128] remaining ones, if any; none is empty,
    each has one label per image, and together they hold every record once,
    in order. *)
Theorem raw_batches_shape :
  forall records : list sample,
    let n := length records in
    map (fun b : raw_batch => length (fst b)) (raw_batches records)
    = repeat 128 (n / 128) ++ (if n mod 128 =? 0 then [] else [n mod 128])
    /\ length (raw_batches records) = (n + 127) / 128
    /\ Forall (fun b : raw_batch =>
                 length (fst b) = length (snd b)
                 /\ 0 < length (fst b) <= 128) (raw_batches records)
    /\ mjoin (map (fun b : raw_batch => zip (fst b) (snd b))
                (raw_batches records))
       = records.
Proof. exact raw_batches_facts. Qed.

Lemma raw_batches_ok train records :
  Forall (fun s : sample => image_ok train (fst s) = true) records ->
  Forall (fun raw => batch_ok train raw = true) (raw_batches records).
Proof.
  intros Hall.
  destruct (raw_batches_facts records) as (_ & _ & Hb & Hj).
  apply Forall_forall. intros raw Hraw.
  rewrite Forall_forall in Hb. destruct (Hb raw Hraw) as (Heq & Hpos & _).
  unfold batch_ok. rewrite <- Heq, Nat.eqb_refl.
  destruct (Nat.eqb_spec (length (fst raw)) 0) as [H0|_]; [lia|].
  cbn [negb andb]. apply forallb_forall. intros img Him.
  apply list_elem_of_In in Him.
  unfold raw_batches in Hraw.
  apply list_elem_of_fmap in Hraw as (b & -> & Hbin).
  cbn [fst] in Him. apply list_elem_of_fmap in Him as (smp & -> & Hs).
  rewrite Forall_forall in Hall. apply Hall.
  rewrite <- (batch_fuel_keep 128 ltac:(lia) (length records) records
                ltac:(reflexivity)).
  apply list_elem_of_join. exists b. split; [exact Hs|exact Hbin].
Qed.

(** The number of sub-batch steps a list of augmented batches gets. *)
Lemma steps_count shuffle train rnd :
  (forall n l, shuffle n l ≡ₚ l) ->
  forall ds augs k0,
    Forall (fun raw => batch_ok train raw = true) ds ->
    Forall2 (augments train rnd) ds augs ->
    length (mjoin (imap (fun k a => sub_batches shuffle (k0 + k) a) augs))
    = sum_list (map (fun raw : raw_batch =>
                       variants train * length (fst raw) / 128) ds)
    /\ Forall (fun s => length s = 128)
         (mjoin (imap (fun k a => sub_batches shuffle (k0 + k) a) augs)).
Proof.
  intros Hperm ds augs k0 Hall HF. revert k0.
  induction HF as [|raw aug ds augs Hra HF IH]; intros k0.
  { split; [reflexivity|constructor]. }
  apply Forall_cons in Hall as [Hok Hall].
  destruct (augments_sizes train rnd raw aug Hok Hra) as [Hs1 Hs2].
  rewrite imap_cons. change (mjoin (?a :: ?r)) with (a ++ mjoin r).
  rewrite (imap_ext _ (fun k a => sub_batches shuffle (S k0 + k) a))
    by (intros i a _; cbn; f_equal; lia).
  destruct (IH Hall (S k0)) as [IHl IHf].
  destruct (batch_drop_remainder
              (shuffle (k0 + 0) (zip (fst aug) (snd aug))))
    as (B1 & B2 & _).
  rewrite (Permutation_length (Hperm _ (zip (fst aug) (snd aug)))),
    length_zip_with in B1.
  split.
  - rewrite length_app, IHl. cbn [map sum_list]. f_equal.
    unfold sub_batches. rewrite B1. change BATCH_SIZE with 128.
    rewrite Hs1, Hs2, Nat.min_id. reflexivity.
  - apply Forall_app. split; [exact B2|exact IHf].
Qed.

Lemma sum_list_map_repeat (f : nat -> nat) x k :
  sum_list (map f (repeat x k)) = k * f x.
Proof. induction k as [|k IH]; cbn; [reflexivity|]. rewrite IH. lia. Qed.

Lemma sum_list_append (a b : list nat) :
  sum_list (a ++ b) = sum_list a + sum_list b.
Proof. induction a as [|x a IH]; cbn; [reflexivity|]. rewrite IH. lia. Qed.

(** The number of gradient (or evaluation) steps of one epoch phase over
    [n >= 1] records whose images fit the mode: each full raw batch of 128
    images gives [variants] sub-batches of 128 samples, and the last raw
    batch, of [n mod 128] images, gives [variants * (n mod 128) / 128]
    more; every step sees exactly 128 samples. *)
Theorem epoch_step_count :
  forall rnd shuffle sched train (records : list sample) pos0,
    (forall n l, shuffle n l ≡ₚ l) ->
    records <> [] ->
    Forall (fun s : sample => image_ok train (fst s) = true) records ->
    exists st,
      run_phase rnd shuffle sched train (raw_batches records) pos0 = inr st
      /\ length (stepped (trace st))
         = variants train * (length records / 128)
           + variants train * (length records mod 128) / 128
      /\ Forall (fun s => length s = 128) (stepped (trace st)).
Proof.
  intros rnd shuffle sched train records pos0 Hperm Hne Hall.
  pose proof (raw_batches_ok train records Hall) as Hok.
  destruct (raw_batches_facts records) as (Hshape & Hlen & _ & _).
  assert (Hne' : raw_batches records <> []).
  { intros E. rewrite E in Hlen. cbn [length] in Hlen.
    destruct records as [|r records]; [contradiction|].
    cbn [length] in Hlen. symmetry in Hlen.
    apply Nat.div_small_iff in Hlen; lia. }
  destruct (run_phase_summary rnd shuffle sched train _ pos0 Hne' Hok)
    as (st & aug0 & rest & pre & blast & E & _ & _ & _ & _
        & _ & Hrel & Hstep & _).
  exists st. split; [exact E|].
  destruct (steps_count shuffle train rnd Hperm _ _ 0 Hok Hrel) as [Hc Hf].
  cbn [Nat.add] in Hc, Hf.
  rewrite Hstep. split; [|exact Hf].
  etransitivity; [exact Hc|].
  rewrite <- (map_map (fun b : raw_batch => length (fst b))
                (fun m => variants train * m / 128)).
  rewrite Hshape, map_app, sum_list_append, sum_list_map_repeat.
  replace (variants train * 128 / 128) with (variants train)
    by (symmetry; apply Nat.div_mul; lia).
  destruct (Nat.eqb_spec (length records mod 128) 0) as [H0|H0].
  - rewrite H0, Nat.mul_0_r, Nat.Div0.div_0_l. cbn [map sum_list]. lia.
  - cbn [map sum_list].
    rewrite Nat.add_0_r, (Nat.mul_comm (length records / 128)). reflexivity.
Qed.

Lemma epoch_step_count_witness :
  exists st,
    run_phase (fun n => n) (fun _ l => rev l) (fun _ => 0) true
      (raw_batches (repeat (sample_image, 7%Z) 130)) 0 = inr st
    /\ length (stepped (trace st)) = 2.
Proof.
  destruct (epoch_step_count (fun n => n) (fun _ l => rev l) (fun _ => 0)
              true (repeat (sample_image, 7%Z) 130) 0)
    as (st & E & Hn & _).
  - intros n l. symmetry. apply Permutation_rev.
  - discriminate.
  - apply Forall_forall. intros s Hs%list_elem_of_In.
    apply repeat_spec in Hs. subst s. reflexivity.
  - exists st. split; [exact E|]. rewrite Hn. reflexivity.
Defined.

(** ** A worker that crashed *)

Lemma epoch_loop_app rnd shuffle sched train ds1 ds2 :
  forall step st,
    epoch_loop rnd shuffle sched train (ds1 ++ ds2) step false st
    = match epoch_loop rnd shuffle sched train ds1 step false st with
      | inl e => inl e
      | inr st' =>
          epoch_loop rnd shuffle sched train ds2 (step + length ds1) false st'
      end.
Proof.
  induction ds1 as [|raw ds1 IH]; intros step st.
  - cbn [app epoch_loop length]. rewrite Nat.add_0_r. reflexivity.
  - cbn [app epoch_loop length].
    destruct (pop_and_split shuffle st) as [e|[subs st1]]; [reflexivity|].
    rewrite IH. replace (S step + length ds1) with (step + S (length ds1))
      by lia. reflexivity.
Qed.

(** With nothing in the slot, the next [q.pop()] ends the phase. *)
Lemma empty_slot_index_error rnd shuffle sched train ds step st :
  q st = [] ->
  match epoch_loop rnd shuffle sched train ds step false st with
  | inl e => inl e
  | inr st' =>
      match pop_and_split shuffle st' with
      | inl e => inl e
      | inr (subs, st1) => inr (run_steps subs st1)
      end
  end = inl IndexError.
Proof.
  intros Hq. destruct ds as [|raw ds]; cbn [epoch_loop];
    rewrite (pop_and_split_empty shuffle st Hq); reflexivity.
Qed.

Lemma run_worker_crash rnd train raw st i img :
  length (fst raw) = length (snd raw) ->
  fst raw !! i = Some img ->
  0 < height img -> 0 < width img ->
  height img < 227 \/ width img < 227 ->
  q (run_worker rnd train raw st) = q st.
Proof.
  intros Hlen Hi Hh Hw Hsmall.
  destruct (preprocessing_loop_fails train (fst raw) (snd raw) rnd
              (seq 0 (length (snd raw))) ([], []) (pos st) i img)
    as [p' E].
  - apply Forall_forall. intros j Hj%elem_of_seq.
    split; apply lookup_lt_is_Some_2; lia.
  - apply elem_of_seq. apply lookup_lt_Some in Hi. lia.
  - exact Hi.
  - intros p0. apply image_cropping_too_small; assumption.
  - unfold run_worker, img_preprocessing. rewrite E. reflexivity.
Qed.

(** A phase with no raw batch at all, and a phase one of whose raw batches
    holds an image smaller than the crop size, both end in the [IndexError]
    of [q.pop()]: the exception of the worker thread itself is not what the
    main thread sees, and it sees it one pop late. *)
Theorem worker_crash_ends_in_index_error :
  forall rnd shuffle sched train ds1 raw ds2 pos0 i img,
    Forall (fun raw => batch_ok train raw = true) ds1 ->
    length (fst raw) = length (snd raw) ->
    fst raw !! i = Some img ->
    0 < height img -> 0 < width img ->
    height img < 227 \/ width img < 227 ->
    run_phase rnd shuffle sched train [] pos0 = inl IndexError
    /\ run_phase rnd shuffle sched train (ds1 ++ raw :: ds2) pos0
       = inl IndexError.
Proof.
  intros rnd shuffle sched train ds1 raw ds2 pos0 i img
    Hall Hlen Hi Hh Hw Hsmall.
  split; [reflexivity|].
  unfold run_phase. destruct ds1 as [|raw0 ds1]; cbn [app epoch_loop].
  - apply empty_slot_index_error. cbn [log q].
    rewrite (run_worker_crash rnd train raw _ i img); try assumption.
    reflexivity.
  - apply Forall_cons in Hall as [Hraw0 Hall].
    set (st1 := log [EvStart 0] (mkLoop [] pos0 0 [])).
    destruct (run_worker_ok rnd train raw0 st1 Hraw0)
      as (aug0 & pos' & _ & Ew & Haug & _).
    rewrite Ew. set (st3 := log [EvJoin] _).
    rewrite epoch_loop_app.
    destruct (epoch_loop_steady rnd shuffle sched train ds1 1 st3 aug0
                eq_refl Haug Hall)
      as (st' & b' & ext & E & Hq' & Hb' & _).
    rewrite E. cbn [epoch_loop].
    rewrite (pop_and_split_ok shuffle st' b' Hq' Hb').
    apply empty_slot_index_error. cbn [log run_steps q].
    rewrite (run_worker_crash rnd train raw _ i img); try assumption.
    reflexivity.
Qed.

Lemma worker_crash_ends_in_index_error_witness :
  run_phase (fun n => n) (fun _ l => l) (fun _ => 1) false
    ([sample_batch 13] ++ ([small_image], [1%Z]) :: [sample_batch 13]) 0
  = inl IndexError.
Proof.
  apply (worker_crash_ends_in_index_error (fun n => n) (fun _ l => l)
           (fun _ => 1) false [sample_batch 13] ([small_image], [1%Z])
           [sample_batch 13] 0 0 small_image).
  - repeat constructor.
  - reflexivity.
  - reflexivity.
  - cbn [small_image height]. lia.
  - cbn [small_image width]. lia.
  - left. cbn [small_image height]. lia.
Defined.

(** ** The thread schedule *)

Lemma same_outcome_refl a : same_outcome a a.
Proof. repeat split. Qed.

Lemma same_outcome_events a b q' pos' n' e1 e2 :
  same_outcome a b ->
  started e1 = started e2 -> appended e1 = appended e2 ->
  popped e1 = popped e2 -> stepped e1 = stepped e2 ->
  same_outcome (mkLoop q' pos' n' (trace a ++ e1))
               (mkLoop q' pos' n' (trace b ++ e2)).
Proof.
  intros (_ & _ & _ & H1 & H2 & H3 & H4) E1 E2 E3 E4.
  unfold same_outcome. cbn [q pos nshuffle trace].
  rewrite !started_app, !appended_app, !popped_app, !stepped_app.
  rewrite H1, H2, H3, H4, E1, E2, E3, E4. repeat split.
Qed.

Lemma same_outcome_log a b e1 e2 :
  same_outcome a b ->
  started e1 = started e2 -> appended e1 = appended e2 ->
  popped e1 = popped e2 -> stepped e1 = stepped e2 ->
  same_outcome (log e1 a) (log e2 b).
Proof.
  intros H E1 E2 E3 E4. unfold log.
  destruct H as (Hq & Hp & Hn & Hrest). rewrite Hq, Hp, Hn.
  apply same_outcome_events; [|assumption..].
  repeat split; try assumption; apply Hrest.
Qed.

Lemma run_worker_same rnd train raw a b :
  same_outcome a b ->
  same_outcome (run_worker rnd train raw a) (run_worker rnd train raw b).
Proof.
  intros H. pose proof H as (Hq & Hp & Hn & _). unfold run_worker.
  rewrite Hq, Hp, Hn.
  destruct (img_preprocessing (q b) (fst raw) (snd raw) train rnd (pos b))
    as [[e|q'] pos'];
    apply same_outcome_events; auto.
Qed.

Lemma pop_and_split_same shuffle a b :
  same_outcome a b ->
  match pop_and_split shuffle a, pop_and_split shuffle b with
  | inl e1, inl e2 => e1 = e2
  | inr (s1, a'), inr (s2, b') => s1 = s2 /\ same_outcome a' b'
  | _, _ => False
  end.
Proof.
  intros H. pose proof H as (Hq & Hp & Hn & _). unfold pop_and_split.
  rewrite Hq, Hp, Hn.
  destruct (rev (q b)) as [|[ims labs] rest]; [reflexivity|].
  destruct (tf_stack ims) as [e|stacked]; [reflexivity|].
  destruct (length labs =? 0); [reflexivity|].
  split; [reflexivity|]. cbn [q pos nshuffle trace].
  apply same_outcome_events; auto.
Qed.

Lemma run_worker_dep rnd train raw st1 st2 :
  q st1 = q st2 -> pos st1 = pos st2 ->
  exists q' pos' ev,
    run_worker rnd train raw st1
    = mkLoop q' pos' (nshuffle st1) (trace st1 ++ [ev])
    /\ run_worker rnd train raw st2
       = mkLoop q' pos' (nshuffle st2) (trace st2 ++ [ev])
    /\ stepped [ev] = [].
Proof.
  intros Hq Hp. unfold run_worker. rewrite Hq, Hp.
  destruct (img_preprocessing (q st2) (fst raw) (snd raw) train rnd (pos st2))
    as [[e|q'] pos']; eexists _, _, _; repeat split.
Qed.

(** One steady-state iteration after the pop, under two schedules. *)
Lemma iteration_same rnd train raw step subs k1 k2 a b :
  same_outcome a b ->
  same_outcome
    (log [EvJoin]
       (run_steps (drop k1 subs)
          (run_worker rnd train raw
             (run_steps (take k1 subs) (log [EvStart step] a)))))
    (log [EvJoin]
       (run_steps (drop k2 subs)
          (run_worker rnd train raw
             (run_steps (take k2 subs) (log [EvStart step] b))))).
Proof.
  intros H. pose proof H as (Hq & Hp & Hn & _).
  destruct (run_worker_dep rnd train raw
              (run_steps (take k1 subs) (log [EvStart step] a))
              (run_steps (take k2 subs) (log [EvStart step] b)) Hq Hp)
    as (q' & pos' & ev & E1 & E2 & Hev).
  rewrite E1, E2. unfold run_steps, log. cbn [q pos nshuffle trace].
  rewrite Hn, <- !app_assoc.
  destruct (steps_neutral (take k1 subs)) as (A1 & A2 & A3 & A4 & _).
  destruct (steps_neutral (drop k1 subs)) as (B1 & B2 & B3 & B4 & _).
  destruct (steps_neutral (take k2 subs)) as (C1 & C2 & C3 & C4 & _).
  destruct (steps_neutral (drop k2 subs)) as (D1 & D2 & D3 & D4 & _).
  apply same_outcome_events; [exact H|..];
    rewrite ?started_app, ?appended_app, ?popped_app, ?stepped_app,
      ?A1, ?A2, ?A3, ?A4, ?B1, ?B2, ?B3, ?B4,
      ?C1, ?C2, ?C3, ?C4, ?D1, ?D2, ?D3, ?D4; try reflexivity.
  rewrite Hev. cbn [stepped flat_map app]. rewrite !app_nil_r, !take_drop.
  reflexivity.
Qed.

Lemma epoch_loop_same rnd shuffle sched1 sched2 train ds :
  forall step isFirst a b,
    same_outcome a b ->
    same_result (epoch_loop rnd shuffle sched1 train ds step isFirst a)
                (epoch_loop rnd shuffle sched2 train ds step isFirst b).
Proof.
  induction ds as [|raw ds IH]; intros step isFirst a b H.
  - exact H.
  - cbn [epoch_loop]. destruct isFirst.
    + apply IH. apply same_outcome_log; try reflexivity.
      apply run_worker_same. apply same_outcome_log; auto.
    + pose proof (pop_and_split_same shuffle a b H) as Hp.
      destruct (pop_and_split shuffle a) as [e1|[s1 a']],
               (pop_and_split shuffle b) as [e2|[s2 b']];
        try contradiction; [exact Hp|].
      destruct Hp as [<- Hab].
      apply IH. apply iteration_same. exact Hab.
Qed.

(** The thread schedule does not change the outcome of a phase: under any
    two schedules the phase either fails with the same exception, or ends
    with the same slot and random positions after the same worker runs,
    the same batches appended and popped and the same sub-batches stepped,
    each in the same order. *)
Theorem schedule_independent :
  forall rnd shuffle sched1 sched2 train ds pos0,
    same_result (run_phase rnd shuffle sched1 train ds pos0)
                (run_phase rnd shuffle sched2 train ds pos0).
Proof.
  intros rnd shuffle sched1 sched2 train ds pos0. unfold run_phase.
  pose proof (epoch_loop_same rnd shuffle sched1 sched2 train ds 0 true
                _ _ (same_outcome_refl (mkLoop [] pos0 0 []))) as H.
  destruct (epoch_loop rnd shuffle sched1 train ds 0 true _) as [e1|a],
           (epoch_loop rnd shuffle sched2 train ds 0 true _) as [e2|b];
    try contradiction; [exact H|].
  cbn [same_result] in H.
  pose proof (pop_and_split_same shuffle a b H) as Hp.
  destruct (pop_and_split shuffle a) as [e1|[s1 a']],
           (pop_and_split shuffle b) as [e2|[s2 b']];
    try contradiction; [exact Hp|].
  destruct Hp as [<- Hab]. cbn [same_result]. unfold run_steps.
  apply same_outcome_log; auto.
Qed.

End PipelineMore.

(* ===================================================================== *)
(** * More on the record parser and on the stagnation check               *)
(* ===================================================================== *)

Section ParseFacts.

Import Augment.
Local Open Scope Z_scope.

Lemma wrap_id bits x :
  0 < bits -> - 2 ^ (bits - 1) <= x < 2 ^ (bits - 1) -> wrap bits x = x.
Proof.
  intros Hb Hx. unfold wrap.
  assert (H2 : 2 ^ bits = 2 * 2 ^ (bits - 1)).
  { replace bits with (Z.succ (bits - 1)) at 1 by lia.
    apply Z.pow_succ_r. lia. }
  rewrite Z.mod_small by lia. lia.
Qed.

(** [_parse_function] turns the 1-based class of a record into the 0-based
    label of the model: a record label in [1, NUM_CLASSES] becomes the
    label one below, in [0, NUM_CLASSES - 1], so distinct classes keep
    distinct labels; the image is passed on as decoded. *)
Theorem parse_function_label :
  forall decoded record_label,
    1 <= record_label <= NUM_CLASSES ->
    _parse_function decoded record_label = (decoded, record_label - 1)
    /\ 0 <= snd (_parse_function decoded record_label) < NUM_CLASSES.
Proof.
  intros decoded l Hl. unfold NUM_CLASSES in *.
  assert (E : _parse_function decoded l = (decoded, l - 1)).
  { unfold _parse_function, tf_cast.
    rewrite (wrap_id 64), (wrap_id 32); try reflexivity; try lia;
      change (2 ^ (32 - 1)) with 2147483648;
      change (2 ^ (64 - 1)) with 9223372036854775808; lia. }
  rewrite E. cbn [snd]. split; [reflexivity|lia].
Qed.

Lemma parse_function_label_witness :
  _parse_function sample_image 1000 = (sample_image, 1000 - 1)
  /\ 0 <= snd (_parse_function sample_image 1000) < NUM_CLASSES.
Proof.
  apply (parse_function_label sample_image 1000).
  unfold NUM_CLASSES. lia.
Defined.

End ParseFacts.

Section TrainMore.

Import Train.
Local Open Scope Q_scope.

Lemma total_calls_app a b :
  total_stagnation_calls (a ++ b)
  = (total_stagnation_calls a + total_stagnation_calls b)%nat.
Proof.
  unfold total_stagnation_calls. rewrite List.filter_app. apply length_app.
Qed.

Lemma total_calls_epoch acc e :
  total_stagnation_calls (epoch_events acc e)
  = if stagnates acc e then 1%nat else 0%nat.
Proof.
  unfold total_stagnation_calls, epoch_events.
  destruct (stagnates acc e); reflexivity.
Qed.

Lemma total_calls_epochs acc n :
  total_stagnation_calls (flat_map (epoch_events acc) (seq 0 n))
  = length (List.filter (stagnates acc) (seq 0 n)).
Proof.
  induction n as [|n IH]; [reflexivity|].
  rewrite seq_S, flat_map_app, total_calls_app, IH, List.filter_app,
    length_app.
  cbn [flat_map List.filter Nat.add]. rewrite app_nil_r, total_calls_epoch.
  destruct (stagnates acc n); reflexivity.
Qed.

Lemma filter_stagnates_bound acc n :
  (length (List.filter (stagnates acc) (seq 0 n)) <= n - 1)%nat.
Proof.
  induction n as [|n IH]; [cbn; lia|].
  rewrite seq_S, List.filter_app, length_app. cbn [List.filter Nat.add].
  destruct n as [|m]; [cbn; lia|].
  destruct (stagnates acc (S m)); cbn [length]; lia.
Qed.

(** Over a run of [n] epochs with accuracies of at least 0, the stagnation
    signal is sent at most [n - 1] times, and not at all when the test
    accuracy rises strictly from each epoch to the next. *)
Theorem stagnation_never_on_improvement :
  forall acc n,
    (forall e, 0 <= acc e) ->
    (total_stagnation_calls (events (main_loop acc n)) <= n - 1)%nat
    /\ ((forall e, acc e < acc (S e)) ->
        total_stagnation_calls (events (main_loop acc n)) = 0%nat).
Proof.
  intros acc n Hacc.
  destruct (main_loop_state acc n Hacc) as [_ He].
  rewrite He, total_calls_epochs. split; [apply filter_stagnates_bound|].
  intros Hinc. clear He.
  induction n as [|n IH]; [reflexivity|].
  rewrite seq_S, List.filter_app, length_app, IH.
  cbn [List.filter Nat.add]. destruct n as [|m]; [reflexivity|].
  cbn [stagnates].
  destruct (Qle_bool (acc (S m)) (acc m)) eqn:E; [|reflexivity].
  apply Qle_bool_iff in E. specialize (Hinc m). lra.
Qed.

Lemma stagnation_never_on_improvement_witness :
  total_stagnation_calls
    (events (main_loop (fun e => Z.of_nat e # 100) 5)) = 0%nat.
Proof.
  apply (stagnation_never_on_improvement (fun e => Z.of_nat e # 100) 5).
  - intros e. unfold Qle. cbn [Qnum Qden]. lia.
  - intros e. unfold Qlt. cbn [Qnum Qden]. lia.
Defined.

(** When the test accuracy never rises (it falls or stays as it is, as a
    constant accuracy does), the signal is sent in every epoch but the
    first: [n - 1] times in [n] epochs. *)
Theorem stagnation_every_epoch_without_improvement :
  forall acc n,
    (forall e, 0 <= acc e) ->
    (forall e, acc (S e) <= acc e) ->
    total_stagnation_calls (events (main_loop acc n)) = (n - 1)%nat
    /\ forall e, (S e < n)%nat ->
         stagnation_calls (S e) (events (main_loop acc n)) = 1%nat.
Proof.
  intros acc n Hacc Hdec.
  destruct (main_loop_state acc n Hacc) as [_ He]. rewrite He.
  assert (Hst : forall e, stagnates acc (S e) = true).
  { intros e. cbn [stagnates]. apply Qle_bool_iff, Hdec. }
  split.
  - rewrite total_calls_epochs. clear He.
    induction n as [|n IH]; [reflexivity|].
    rewrite seq_S, List.filter_app, length_app, IH.
    cbn [List.filter Nat.add]. destruct n as [|m]; [reflexivity|].
    rewrite Hst. cbn [length]. lia.
  - intros e Hlt. rewrite stagnation_calls_epochs, Hst.
    destruct (Nat.ltb_spec (S e) n); [reflexivity|lia].
Qed.

Lemma stagnation_every_epoch_without_improvement_witness :
  total_stagnation_calls (events (main_loop (fun _ => 1 # 2) 5)) = 4%nat.
Proof.
  apply (stagnation_every_epoch_without_improvement (fun _ => 1 # 2) 5).
  - intros e. unfold Qle. cbn [Qnum Qden]. lia.
  - intros e. unfold Qle. cbn [Qnum Qden]. lia.
Defined.

End TrainMore.
